(** * The persistent document queue of py_backend, and its startup repair pass

    A shallow embedding of [py_backend/document_queue.py] (class
    [DocumentQueue]) and of [cleanup_stuck_documents] from
    [py_backend/main.py], with the properties of the queue contract stated
    and proved over it.

    Modelling conventions.
    - The [jobs] table has [id TEXT PRIMARY KEY]; it is a finite map from the
      id to the remaining columns of the row.
    - The [status] column only ever receives the four literals written by the
      code; it is an enumeration.
    - Timestamps are whole seconds on one time line, as integers.  SQLite's
      [CURRENT_TIMESTAMP] and [datetime(...)] produce text of the shape
      [YYYY-MM-DD HH:MM:SS], whose text order is the order of the instants.
      The instant read by an operation is its [now] argument.
    - Integer columns and integer arguments are [Z].  An integer argument
      bound to a statement must fit SQLite's 64-bit INTEGER; sqlite3 raises
      [OverflowError] otherwise, before the statement runs.  Instants are
      taken inside the range of dates SQLite can represent.
    - Every row has SQLite's implicit [rowid]; a new row gets the largest
      rowid of the table plus one, so that rowid order is insertion order.
      SQLite reaches the rows of an index scan in rowid order and its sorter
      keeps that order among rows with equal sort keys.
    - A Python exception of class [Exception] is represented by its
      [str()]. *)

From stdpp Require Import gmap strings list fin_maps pretty sorting.
From Stdlib Require Import ZArith Lia.

Open Scope Z_scope.

(** ** Results and the store-passing monad *)

Inductive result (A : Type) : Type :=
| Ok (a : A)
| Raise (msg : string).
Arguments Ok {A} a.
Arguments Raise {A} msg.

(** [x or d] on an optional string: [None] and the empty
    string are falsy. *)
Definition or_default (o : option string) (d : string) : string :=
  match o with
  | Some s => if bool_decide (s = "") then d else s
  | None => d
  end.

Module Queue.

(** *** Data model: one row of [jobs], without its key *)

Inductive Status : Set := Queued | Processing | Completed | Failed.

#[global] Instance Status_eq_dec : EqDecision Status.
Proof. solve_decision. Defined.

(** [rowid] is the integer key SQLite gives every row of the table; no
    statement of the queue names it. *)
Record Job : Type := mkJob {
  notebook_id : string;
  document_id : string;
  content : string;
  status : Status;
  priority : Z;
  retry_count : Z;
  max_retries : Z;
  created_at : Z;
  started_at : option Z;
  completed_at : option Z;
  failed_at : option Z;
  error : option string;
  rowid : Z
}.

Abbreviation DB := (gmap string Job).

(** Every method opens a connection, runs its statements against the store
    and commits; a method is a function from the store to a result and the
    store it leaves. *)
Definition Q (A : Type) : Type := DB → result A * DB.

#[global] Instance Q_ret : MRet Q := λ A a db, (Ok a, db).

#[global] Instance Q_bind : MBind Q := λ A B k m db,
  match m db with
  | (Ok a, db') => k a db'
  | (Raise e, db') => (Raise e, db')
  end.

(** A [SELECT]: reads, leaves the store as it is. *)
Definition select {A} (f : DB → A) : Q A := λ db, (Ok (f db), db).

(** An [UPDATE], [INSERT] or [DELETE] followed by [commit]. *)
Definition execute (f : DB → DB) : Q unit := λ db, (Ok tt, f db).

Definition raise {A} (msg : string) : Q A := λ db, (Raise msg, db).

(** [try: m  except Exception as e: h(str(e))]; what [m] committed before
    raising stays committed. *)
Definition try_except {A} (m : Q A) (h : string → Q A) : Q A :=
  λ db, match m db with
        | (Ok a, db') => (Ok a, db')
        | (Raise e, db') => h e db'
        end.

(** The result of a callback that does not touch the store. *)
Definition call {A} (r : result A) : Q A := λ db, (r, db).

Definition store_after {A} (m : Q A) (db : DB) : DB := snd (m db).
Definition value_of {A} (m : Q A) (db : DB) : result A := fst (m db).

(** *** SQL helpers *)

(** [a < b] in a [WHERE] clause: not satisfied when a side is [NULL]. *)
Definition sql_lt (a b : option Z) : bool :=
  match a, b with
  | Some x, Some y => x <? y
  | _, _ => false
  end.

(** [datetime('now', '-' || n || ' <unit>')] for an integer [n], [unit] in
    seconds.  For a negative [n] the modifier text is ['--5 seconds'], which
    SQLite does not accept: the value is [NULL].  (SQLite also gives [NULL]
    when the result would lie before its first date; no stored instant is
    earlier than such a result, so the comparisons that use it come out the
    same.) *)
Definition datetime_now_minus (now n unit : Z) : option Z :=
  if n <? 0 then None else Some (now - n * unit).

(** An integer fits SQLite's INTEGER. *)
Definition int64 (n : Z) : bool :=
  (-9223372036854775808 <=? n) && (n <=? 9223372036854775807).

Definition overflow_error : string :=
  "Python int too large to convert to SQLite INTEGER".

(** Binding the integer [n] to a [?] of a statement. *)
Definition bind_int (n : Z) : Q unit :=
  if int64 n then mret tt else raise overflow_error.

(** The rowid of the next inserted row: the largest rowid in the table plus
    one, and 1 in an empty table. *)
Definition next_rowid (db : DB) : Z :=
  match map_to_list db with
  | [] => 1
  | kv :: rows => foldr (λ kv acc, Z.max (rowid kv.2) acc) (rowid kv.2) rows + 1
  end.

(** The rows in rowid order, as a scan of the table or of the entries of
    one key of an index reaches them. *)
Definition by_rowid (a b : string * Job) : Prop := rowid a.2 ≤ rowid b.2.

#[global] Instance by_rowid_dec a b : Decision (by_rowid a b).
Proof. unfold by_rowid. apply _. Defined.

Definition table_rows (db : DB) : list (string * Job) :=
  merge_sort by_rowid (map_to_list db).

(** [UPDATE jobs SET ... WHERE P]: the rows satisfying [P] are rewritten by
    [f]; [cursor.rowcount] is the number of rows matched. *)
Definition update_where (P : Job → bool) (f : Job → Job) (db : DB) : DB :=
  (λ j, if P j then f j else j) <$> db.

Definition count_where (P : Job → bool) (db : DB) : nat :=
  size (filter (λ kv : string * Job, P kv.2 = true) db).

(** [DELETE FROM jobs WHERE P]. *)
Definition delete_where (P : Job → bool) (db : DB) : DB :=
  filter (λ kv : string * Job, P kv.2 ≠ true) db.

(** The statement together with its [cursor.rowcount]. *)
Definition update_rows (P : Job → bool) (f : Job → Job) : Q nat :=
  λ db, (Ok (count_where P db), update_where P f db).

Definition delete_rows (P : Job → bool) : Q nat :=
  λ db, (Ok (count_where P db), delete_where P db).

(** *** Row updates: the [SET] lists of the statements *)

(** [SET status = 'processing', started_at = CURRENT_TIMESTAMP] *)
Definition set_processing (now : Z) (j : Job) : Job :=
  mkJob (notebook_id j) (document_id j) (content j) Processing (priority j)
        (retry_count j) (max_retries j) (created_at j)
        (Some now) (completed_at j) (failed_at j) (error j) (rowid j).

(** [SET status = 'completed', completed_at = CURRENT_TIMESTAMP, error = NULL] *)
Definition set_completed (now : Z) (j : Job) : Job :=
  mkJob (notebook_id j) (document_id j) (content j) Completed (priority j)
        (retry_count j) (max_retries j) (created_at j)
        (started_at j) (Some now) (failed_at j) None (rowid j).

(** [SET status = 'queued', retry_count = retry_count + 1, error = ?] *)
Definition set_retry (msg : string) (j : Job) : Job :=
  mkJob (notebook_id j) (document_id j) (content j) Queued (priority j)
        (retry_count j + 1) (max_retries j) (created_at j)
        (started_at j) (completed_at j) (failed_at j) (Some msg) (rowid j).

(** [SET status = 'failed', failed_at = CURRENT_TIMESTAMP, error = ?] *)
Definition set_failed (now : Z) (msg : string) (j : Job) : Job :=
  mkJob (notebook_id j) (document_id j) (content j) Failed (priority j)
        (retry_count j) (max_retries j) (created_at j)
        (started_at j) (completed_at j) (Some now) (Some msg) (rowid j).

(** [SET status = 'queued', error = ?] (recovery) *)
Definition set_recovered (msg : string) (j : Job) : Job :=
  mkJob (notebook_id j) (document_id j) (content j) Queued (priority j)
        (retry_count j) (max_retries j) (created_at j)
        (started_at j) (completed_at j) (failed_at j) (Some msg) (rowid j).

(** *** enqueue *)

(** [job_id = str(uuid.uuid4())] is the argument [uuid].  The [INSERT] names
    five columns; the others take their defaults ([retry_count 0],
    [max_retries 2], [created_at CURRENT_TIMESTAMP], the rest [NULL]).  The
    priority is bound as an integer.  An id already in the table violates
    the primary key: sqlite3 raises and nothing is inserted. *)
Definition new_job (row : Z) (now : Z) (notebook document text : string)
    (prio : Z) : Job :=
  mkJob notebook document text Queued prio 0 2 now None None None None row.

Definition enqueue (now : Z) (uuid notebook document text : string)
    (prio : Z) : Q string :=
  bind_int prio ;;
  row ← select (λ db, db !! uuid);
  match row with
  | Some _ => raise "UNIQUE constraint failed: jobs.id"
  | None =>
      execute (λ db, <[uuid := new_job (next_rowid db) now notebook document
                                text prio]> db) ;;
      mret uuid
  end.

(** *** get_next_job *)

(** The dict returned by [get_next_job]. *)
Record JobDict : Type := mkJobDict {
  job_id : string;
  d_notebook_id : string;
  d_document_id : string;
  d_content : string;
  d_retry_count : Z;
  d_max_retries : Z
}.

(** [ORDER BY ... LIMIT 1], for an order given by [before a b] ("[a] sorts
    strictly before [b]"): the first row of the sorted result.  [rows] are
    the rows in the order in which the scan reaches them; among rows that
    the order does not separate the one reached first is kept. *)
Definition first_row (before : Job → Job → bool)
    (rows : list (string * Job)) : option (string * Job) :=
  foldl (λ best row,
           match best with
           | None => Some row
           | Some b => if before row.2 b.2 then Some row else Some b
           end) None rows.

(** [ORDER BY priority DESC, created_at ASC] *)
Definition sorts_before (a b : Job) : bool :=
  (priority b <? priority a)
  || ((priority a =? priority b) && (created_at a <? created_at b)).

(** [WHERE status = 'queued'], through the index on [status]: the queued
    rows in rowid order. *)
Definition queued_rows (db : DB) : list (string * Job) :=
  filter (λ kv : string * Job, status kv.2 = Queued) (table_rows db).

Definition row_dict (row : string * Job) : JobDict :=
  mkJobDict row.1 (notebook_id row.2) (document_id row.2) (content row.2)
            (retry_count row.2) (max_retries row.2).

Definition get_next_job : Q (option JobDict) :=
  select (λ db, row_dict <$> first_row sorts_before (queued_rows db)).

(** *** mark_processing, mark_completed, mark_failed *)

Definition mark_processing (now : Z) (id : string) : Q unit :=
  execute (alter (set_processing now) id).

Definition mark_completed (now : Z) (id : string) : Q unit :=
  execute (alter (set_completed now) id).

(** [f"Retry {retry_count + 1}/{max_retries}: {error}"] *)
Definition retry_message (retry_count max_retries : Z) (err : string) : string :=
  "Retry " +:+ pretty (retry_count + 1) +:+ "/" +:+ pretty max_retries
           +:+ ": " +:+ err.

(** [f"Failed after {max_retries} retries: {error}"] *)
Definition failed_message (max_retries : Z) (err : string) : string :=
  "Failed after " +:+ pretty max_retries +:+ " retries: " +:+ err.

Definition mark_failed (now : Z) (id : string) (err : string) : Q unit :=
  row ← select (λ db, db !! id);
  match row with
  | Some row =>
      let retry_count := retry_count row in
      let max_retries := max_retries row in
      if retry_count <? max_retries
      then execute (alter (set_retry (retry_message retry_count max_retries err)) id)
      else execute (alter (set_failed now (failed_message max_retries err)) id)
  | None => mret tt
  end.

(** *** recover_stuck_jobs, clear_old_jobs *)

Definition is_processing (j : Job) : bool := bool_decide (status j = Processing).

Definition is_stuck (now timeout_seconds : Z) (j : Job) : bool :=
  is_processing j
  && sql_lt (started_at j) (datetime_now_minus now timeout_seconds 1).

Definition recover_stuck_jobs (now : Z) (timeout_seconds : option Z) : Q nat :=
  match timeout_seconds with
  | None =>
      update_rows is_processing (set_recovered "Recovered from server restart")
  | Some t =>
      bind_int t ;;
      update_rows (is_stuck now t) (set_recovered "Recovered from stuck state")
  end.

Definition is_terminal (j : Job) : bool :=
  bool_decide (status j = Completed) || bool_decide (status j = Failed).

Definition is_old (now days : Z) (j : Job) : bool :=
  is_terminal j
  && (sql_lt (completed_at j) (datetime_now_minus now days 86400)
      || sql_lt (failed_at j) (datetime_now_minus now days 86400)).

Definition clear_old_jobs (now : Z) (days : Z) : Q nat :=
  bind_int days ;;
  delete_rows (is_old now days).

(** *** The worker loop *)

(** The callbacks registered by [set_processor] and [set_status_checker].
    The processor returns nothing or raises; the checker returns the pair
    [(status, error_message)], whose second component may be [None], or
    raises.  Neither is given the queue.  What a callback raises is an
    exception of class [Exception], the class the two handlers of the
    worker catch.  An exception outside that class ([KeyboardInterrupt],
    [SystemExit], [asyncio.CancelledError]) passes both handlers and ends
    the worker thread with the row left [processing]; it has no
    representation here. *)
Record Callbacks : Type := mkCallbacks {
  processor_func : string → string → string → result unit;
  status_checker_func : option (string → result (string * option string))
}.

(** [f"Document status is '{doc_status}' after processing - expected
    'completed' or 'failed'"] *)
Definition unexpected_status_message (doc_status : string) : string :=
  "Document status is '" +:+ doc_status
    +:+ "' after processing - expected 'completed' or 'failed'".

(** The [if self.status_checker_func: ... else: ...] block. *)
Definition verify_and_mark (cb : Callbacks) (now : Z) (job : JobDict) : Q unit :=
  match status_checker_func cb with
  | Some status_checker =>
      '(doc_status, error_message) ← call (status_checker (d_document_id job));
      if bool_decide (doc_status = "completed") then
        mark_completed now (job_id job)
      else if bool_decide (doc_status = "failed") then
        mark_failed now (job_id job) (or_default error_message "Document processing failed")
      else
        mark_failed now (job_id job) (unexpected_status_message doc_status)
  | None => mark_completed now (job_id job)
  end.

(** One pass through the body of [while self.worker_running].  [t_start] is
    the instant at which the job is marked processing, [t_end] the instant
    at which its outcome is recorded. *)
Definition worker_iteration (cb : Callbacks) (t_start t_end : Z) : Q unit :=
  try_except
    (job ← get_next_job;
     match job with
     | Some job =>
         try_except
           (mark_processing t_start (job_id job) ;;
            call (processor_func cb (d_notebook_id job) (d_document_id job)
                    (d_content job)) ;;
            verify_and_mark cb t_end job)
           (λ error_msg, mark_failed t_end (job_id job) error_msg)
     | None => mret tt
     end)
    (λ _, mret tt).

(** [_worker_loop] over a finite schedule: for each pass made before
    [worker_running] is cleared, what the callbacks do in that pass and its
    two instants. *)
Fixpoint worker_loop (schedule : list (Callbacks * Z * Z)) : Q unit :=
  match schedule with
  | [] => mret tt
  | (cb, t_start, t_end) :: rest =>
      worker_iteration cb t_start t_end ;; worker_loop rest
  end.

End Queue.

(** ** The startup repair of the document ledger *)

Module Reconcile.
Import Queue.

(** A value of [documents.json]: a string, or anything else (kept as its
    text). *)
Inductive json : Type :=
| JStr (s : string)
| JOther (raw : string).

(** [documents.json] maps a document id to an object. *)
Abbreviation DocData := (gmap string json).
Abbreviation Ledger := (gmap string DocData).

(** [doc_data.get("status") == "processing"] *)
Definition is_stuck_doc (doc_data : DocData) : bool :=
  match doc_data !! "status" with
  | Some (JStr s) => bool_decide (s = "processing")
  | _ => false
  end.

(** [ORDER BY created_at DESC] *)
Definition newer (a b : Job) : bool := created_at b <? created_at a.

(** [SELECT status, error FROM jobs WHERE document_id = ?
     ORDER BY created_at DESC LIMIT 1].  SQLite answers it by walking the
    index on [created_at] backwards, so that among rows created in the same
    second the one with the largest rowid is reached first. *)
Definition latest_job (db : DB) (doc_id : string) : option Job :=
  snd <$> first_row newer
            (reverse (filter (λ kv : string * Job, document_id kv.2 = doc_id)
                             (table_rows db))).

(** The three assignments [all_docs[doc_id]["status"] = "failed"],
    [...["error"] = err], [...["failed_at"] = datetime.now().isoformat()]. *)
Definition mark_doc_failed (err at_time : string) (doc_data : DocData) : DocData :=
  <["failed_at" := JStr at_time]>
    (<["error" := JStr err]> (<["status" := JStr "failed"]> doc_data)).

Definition completed_but_stale : string :=
  "Processing completed but document status wasn't updated (possible silent error). Please retry.".

Definition no_queue_job : string :=
  "No queue job found - server may have crashed during upload".

(** The body of [for doc_id, doc_data in stuck_docs], on the pair
    [(all_docs, fixed_count)].  [clock doc_id] is the text of
    [datetime.now().isoformat()] read while [doc_id] is handled. *)
Definition repair_doc (db : DB) (clock : string → string)
    (st : Ledger * nat) (entry : string * DocData) : Ledger * nat :=
  let doc_id := entry.1 in
  match latest_job db doc_id with
  | Some job =>
      match status job with
      | Completed =>
          (alter (mark_doc_failed completed_but_stale (clock doc_id)) doc_id st.1,
           S st.2)
      | Failed =>
          (alter (mark_doc_failed (or_default (error job) "Unknown error")
                    (clock doc_id)) doc_id st.1,
           S st.2)
      | _ => st
      end
  | None =>
      (alter (mark_doc_failed no_queue_job (clock doc_id)) doc_id st.1, S st.2)
  end.

(** What the loop body does to the entry of [doc_id]. *)
Definition repaired (db : DB) (clock : string → string) (doc_id : string)
    (doc_data : DocData) : DocData :=
  match latest_job db doc_id with
  | Some job =>
      match status job with
      | Completed => mark_doc_failed completed_but_stale (clock doc_id) doc_data
      | Failed =>
          mark_doc_failed (or_default (error job) "Unknown error") (clock doc_id)
            doc_data
      | _ => doc_data
      end
  | None => mark_doc_failed no_queue_job (clock doc_id) doc_data
  end.

(** [cleanup_stuck_documents]: from the contents of [documents.json] (absent
    when the file does not exist) and the queue database (absent likewise)
    to the contents of [documents.json] afterwards. *)
Definition cleanup_stuck_documents (clock : string → string)
    (documents_json : option Ledger) (queue_db : option DB) : option Ledger :=
  match documents_json with
  | None => None
  | Some all_docs =>
      let stuck_docs :=
        filter (λ entry : string * DocData, is_stuck_doc entry.2 = true)
               (map_to_list all_docs) in
      match stuck_docs with
      | [] => Some all_docs
      | _ =>
          match queue_db with
          | None => Some all_docs
          | Some db =>
              let '(fixed_docs, fixed_count) :=
                foldl (repair_doc db clock) (all_docs, 0%nat) stuck_docs in
              if (0 <? fixed_count)%nat then Some fixed_docs else Some all_docs
          end
      end
  end.

End Reconcile.

(** ** Histories of queue operations *)

Module History.
Import Queue.

(** One call on the queue, by a client or by the worker thread. *)
Inductive Op : Type :=
| Enqueue (uuid notebook document text : string) (prio : Z)
| GetNextJob
| MarkProcessing (id : string)
| MarkCompleted (id : string)
| MarkFailed (id : string) (err : string)
| RecoverStuckJobs (timeout_seconds : option Z)
| ClearOldJobs (days : Z)
| WorkerIteration (cb : Callbacks) (t_end : Z).

(** The store after the call [op] made at the instant [now]. *)
Definition run_op (now : Z) (op : Op) (db : DB) : DB :=
  match op with
  | Enqueue uuid notebook document text prio =>
      store_after (enqueue now uuid notebook document text prio) db
  | GetNextJob => store_after get_next_job db
  | MarkProcessing id => store_after (mark_processing now id) db
  | MarkCompleted id => store_after (mark_completed now id) db
  | MarkFailed id err => store_after (mark_failed now id err) db
  | RecoverStuckJobs timeout_seconds =>
      store_after (recover_stuck_jobs now timeout_seconds) db
  | ClearOldJobs days => store_after (clear_old_jobs now days) db
  | WorkerIteration cb t_end => store_after (worker_iteration cb now t_end) db
  end.

(** The store after a history of calls, oldest first, on the empty table
    created by [_init_db]. *)
Definition run_ops (history : list (Z * Op)) : DB :=
  foldl (λ db call, run_op call.1 call.2 db) ∅ history.

(** How a pass of the worker ends for the job it took, on the store left by
    [mark_processing]. *)
Definition outcome_of (cb : Callbacks) (t_end : Z) (job : JobDict) : Q unit :=
  match processor_func cb (d_notebook_id job) (d_document_id job) (d_content job) with
  | Ok _ =>
      match status_checker_func cb with
      | Some status_checker =>
          match status_checker (d_document_id job) with
          | Ok (doc_status, error_message) =>
              if bool_decide (doc_status = "completed") then
                mark_completed t_end (job_id job)
              else if bool_decide (doc_status = "failed") then
                mark_failed t_end (job_id job)
                  (or_default error_message "Document processing failed")
              else
                mark_failed t_end (job_id job) (unexpected_status_message doc_status)
          | Raise e => mark_failed t_end (job_id job) e
          end
      | None => mark_completed t_end (job_id job)
      end
  | Raise e => mark_failed t_end (job_id job) e
  end.

(** What one statement of the queue does to one row. *)
Inductive row_step (j : Job) : Job → Prop :=
| step_processing t : row_step j (set_processing t j)
| step_completed t : row_step j (set_completed t j)
| step_retry msg :
    retry_count j < max_retries j → row_step j (set_retry msg j)
| step_failed t msg :
    max_retries j ≤ retry_count j → row_step j (set_failed t msg j)
| step_recovered msg :
    status j = Processing → row_step j (set_recovered msg j).

(** The calls made by the application itself: clients enqueue and ask for
    maintenance, and only the worker thread marks jobs. *)
Definition worker_driven (op : Op) : Prop :=
  match op with
  | MarkProcessing _ | MarkCompleted _ | MarkFailed _ _ => False
  | _ => True
  end.

(** A row carries at most the timestamp of its own terminal state. *)
Definition one_terminal_stamp (j : Job) : Prop :=
  (completed_at j ≠ None → status j = Completed ∧ failed_at j = None)
  ∧ (failed_at j ≠ None → status j = Failed ∧ completed_at j = None).

(** The four timestamp columns of a row. *)
Definition timestamps (j : Job) : Z * option Z * option Z * option Z :=
  (created_at j, started_at j, completed_at j, failed_at j).

End History.

(** ** Sample stores *)

Module Samples.
Import Queue History.

(** A job on its second attempt, being processed. *)
Definition sample_job : Job :=
  mkJob "nb" "doc" "text" Processing 0 1 2 100 (Some 110) None None None 1.

Definition sample_db : DB := {[ "job" := sample_job ]}.

(** One job, enqueued, started, and requeued after a first failure. *)
Definition retried_once : list (Z * Op) :=
  [ (0, Enqueue "job" "nb" "doc" "text" 0);
    (10, MarkProcessing "job");
    (11, MarkFailed "job" "boom") ].

(** One job that has used both of its retries. *)
Definition retried_twice : list (Z * Op) :=
  [ (0, Enqueue "job" "nb" "doc" "text" 0);
    (10, MarkProcessing "job");
    (11, MarkFailed "job" "boom");
    (20, MarkProcessing "job");
    (21, MarkFailed "job" "boom") ].

(** One job that failed for good at instant 0 and was marked completed
    forty days later. *)
Definition failed_then_completed : list (Z * Op) :=
  [ (0, Enqueue "job" "nb" "doc" "text" 0);
    (0, MarkFailed "job" "boom");
    (0, MarkFailed "job" "boom");
    (0, MarkFailed "job" "boom");
    (3456000, MarkCompleted "job") ].

(** Three jobs enqueued with priorities 1, 5 and 3, then two more with
    priority 0, one second apart. *)
Definition mixed_priorities : list (Z * Op) :=
  [ (0, Enqueue "p1" "nb" "doc1" "text" 1);
    (0, Enqueue "p5" "nb" "doc2" "text" 5);
    (0, Enqueue "p3" "nb" "doc3" "text" 3);
    (1, Enqueue "A" "nb" "doc4" "text" 0);
    (2, Enqueue "B" "nb" "doc5" "text" 0) ].

(** A store holding one freshly enqueued job. *)
Definition one_queued : DB :=
  run_ops [ (0, Enqueue "job" "nb" "doc" "text" 0) ].

(** The processor returns normally, the checker reports a failure. *)
Definition silent_failure : Callbacks :=
  mkCallbacks (λ _ _ _, Ok tt) (Some (λ _, Ok ("failed", Some "index write failed"))).

(** One job for document ["doc"], processed and marked completed. *)
Definition completed_history : list (Z * Op) :=
  [ (0, Enqueue "job" "nb" "doc" "text" 0);
    (10, MarkProcessing "job");
    (20, MarkCompleted "job") ].

(** One job for document ["doc"] that failed three times in a row, the
    last time for good. *)
Definition failed_history : list (Z * Op) :=
  [ (0, Enqueue "job" "nb" "doc" "text" 0);
    (1, MarkFailed "job" "boom");
    (2, MarkFailed "job" "boom");
    (3, MarkFailed "job" "boom") ].

(** Two jobs of equal priority enqueued in the same second, the id of the
    first after the id of the second in the order of the keys. *)
Definition same_second : list (Z * Op) :=
  [ (0, Enqueue "b" "nb" "doc1" "text" 0);
    (0, Enqueue "a" "nb" "doc2" "text" 0) ].

(** Two jobs of one document enqueued in the same second; the first fails
    for good within that second. *)
Definition same_second_jobs : list (Z * Op) :=
  [ (0, Enqueue "b" "nb" "doc" "first" 0);
    (0, MarkFailed "b" "boom");
    (0, MarkFailed "b" "boom");
    (0, MarkFailed "b" "boom");
    (0, Enqueue "a" "nb" "doc" "second" 0) ].

(** A ledger whose entry for ["doc"] still says [processing]. *)
Definition stale_ledger : Reconcile.Ledger :=
  {[ "doc" := {[ "status" := Reconcile.JStr "processing" ]} ]}.

Definition startup_clock : string → string := λ _, "2025-01-01T00:00:00".

End Samples.

(** ** The read-only methods of the queue *)

Module Reads.
Import Queue.

(** The text stored in the [status] column. *)
Definition status_text (s : Status) : string :=
  match s with
  | Queued => "queued"
  | Processing => "processing"
  | Completed => "completed"
  | Failed => "failed"
  end.

(** [if x:] on an optional string argument: [None] and the empty string are
    falsy. *)
Definition truthy (x : option string) : bool :=
  match x with
  | Some s => negb (bool_decide (s = ""))
  | None => false
  end.

(** [get_job_status]: [SELECT * FROM jobs WHERE id = ?], the row with its id
    or [None].  The pair stands for the dict of the declared columns of the
    row; [SELECT *] does not list the rowid, and the dict has no key for
    it. *)
Definition get_job_status (id : string) : Q (option (string * Job)) :=
  select (λ db, (λ j, (id, j)) <$> db !! id).

(** The rows [get_queue_stats] looks at: those of the notebook when the
    argument is truthy ([WHERE notebook_id = ?]), all rows otherwise. *)
Definition in_scope (notebook : option string) (j : Job) : bool :=
  if truthy notebook then bool_decide (Some (notebook_id j) = notebook) else true.

(** [SELECT status, COUNT( * ) ... GROUP BY status]: one pair for each status
    that occurs among the rows in scope. *)
Definition status_counts (scope : Job → bool) (db : DB) : list (Status * nat) :=
  filter (λ p : Status * nat, p.2 ≠ 0%nat)
    ((λ st, (st, count_where (λ j, scope j && bool_decide (status j = st)) db))
       <$> [Completed; Failed; Processing; Queued]).

(** [stats.get(key, 0)] on the dict built from the pairs. *)
Definition stats_get (stats : list (Status * nat)) (st : Status) : nat :=
  match list_find (λ p : Status * nat, p.1 = st) stats with
  | Some (_, p) => p.2
  | None => 0%nat
  end.

(** The dict returned by [get_queue_stats]. *)
Record QueueStats : Type := mkQueueStats {
  queued : nat;
  processing : nat;
  completed : nat;
  failed : nat;
  total : nat
}.

Definition get_queue_stats (notebook : option string) : Q QueueStats :=
  select (λ db,
    let stats := status_counts (in_scope notebook) db in
    mkQueueStats (stats_get stats Queued) (stats_get stats Processing)
                 (stats_get stats Completed) (stats_get stats Failed)
                 (sum_list stats.*2)).

(** The [WHERE] clause of [get_jobs_by_notebook]: the status is compared
    only when the argument is truthy. *)
Definition listed (notebook : string) (status_arg : option string) (j : Job) : bool :=
  bool_decide (notebook_id j = notebook)
  && (if truthy status_arg
      then bool_decide (Some (status_text (status j)) = status_arg)
      else true).

(** [ORDER BY created_at DESC], applied to rows that reach the sorter in
    rowid order: [a] may stand before [b]. *)
Definition newest_first (a b : string * Job) : Prop :=
  created_at b.2 < created_at a.2
  ∨ (created_at b.2 = created_at a.2 ∧ rowid a.2 ≤ rowid b.2).

#[global] Instance newest_first_dec a b : Decision (newest_first a b).
Proof. unfold newest_first. apply _. Defined.

(** [get_jobs_by_notebook]: the matching rows, newest first, and in rowid
    order among rows created in the same second. *)
Definition get_jobs_by_notebook (notebook : string) (status_arg : option string)
    : Q (list (string * Job)) :=
  select (λ db,
    merge_sort newest_first
      (map_to_list
         (filter (λ kv : string * Job, listed notebook status_arg kv.2 = true) db))).

End Reads.

(** ** Starting and stopping the worker *)

Module Control.
Import Queue.

(** The fields of a [DocumentQueue] object beside its database.
    [threads_started] counts the calls of [Thread.start] made so far. *)
Record Worker : Type := mkWorker {
  worker_running : bool;
  processor : option (string → string → string → result unit);
  status_checker : option (string → result (string * option string));
  threads_started : nat
}.

(** The fields as [__init__] leaves them. *)
Definition init : Worker := mkWorker false None None 0.

Definition set_processor (f : string → string → string → result unit)
    (w : Worker) : Worker :=
  mkWorker (worker_running w) (Some f) (status_checker w) (threads_started w).

Definition set_status_checker (f : string → result (string * option string))
    (w : Worker) : Worker :=
  mkWorker (worker_running w) (processor w) (Some f) (threads_started w).

(** [start_worker]: nothing when the worker runs already; [ValueError] when
    no processor is registered; otherwise the flag is set and a thread is
    started. *)
Definition start_worker (w : Worker) : result unit * Worker :=
  if worker_running w then (Ok tt, w)
  else match processor w with
       | None =>
           (Raise "No processor function set. Call set_processor() first.", w)
       | Some _ =>
           (Ok tt,
            mkWorker true (processor w) (status_checker w) (S (threads_started w)))
       end.

(** [stop_worker]: nothing when the worker does not run; otherwise the flag
    is cleared (and the thread waited for). *)
Definition stop_worker (w : Worker) : Worker :=
  if worker_running w
  then mkWorker false (processor w) (status_checker w) (threads_started w)
  else w.

(** One call on the object. *)
Inductive Call : Type :=
| SetProcessor (f : string → string → string → result unit)
| SetStatusChecker (f : string → result (string * option string))
| StartWorker
| StopWorker.

Definition run_call (w : Worker) (c : Call) : Worker :=
  match c with
  | SetProcessor f => set_processor f w
  | SetStatusChecker f => set_status_checker f w
  | StartWorker => (start_worker w).2
  | StopWorker => stop_worker w
  end.

Definition run_calls (calls : list Call) : Worker := foldl run_call init calls.

End Control.

(** ** The status checker registered at startup *)

Module Verification.
Import Queue Reconcile.

(** [check_document_status] of [startup_event], on the in-memory copy of
    [documents.json]: the pair [(status, error)] of the document, with
    ["unknown"] and the empty string for missing fields, and a fixed pair for a missing
    document. *)
Definition check_document_status (lightrag_documents_db : Ledger)
    (document_id : string) : json * json :=
  match lightrag_documents_db !! document_id with
  | None => (JStr "unknown", JStr "Document not found in database")
  | Some doc_data =>
      (default (JStr "unknown") (doc_data !! "status"),
       default (JStr "") (doc_data !! "error"))
  end.

End Verification.

(** ** The clean-up script for stale document ids *)

Module StaleDocs.
Import Reconcile.

(** [kv_store_doc_status.json]: a JSON object keyed by document id. *)
Abbreviation DocStatus := (gmap string json).

(** [str.lower] on the letters A to Z; the answers are only compared with
    the words [cancel], [all] and [yes], which no other character lowers
    into. *)
Definition lower_ascii (c : Ascii.ascii) : Ascii.ascii :=
  let n := Ascii.N_of_ascii c in
  if ((65 <=? n) && (n <=? 90))%N then Ascii.ascii_of_N (n + 32) else c.

Fixpoint lower (s : string) : string :=
  match s with
  | EmptyString => EmptyString
  | String c rest => String (lower_ascii c) (lower rest)
  end.

(** [pattern in doc_id]: [pattern] occurs in [doc_id] as a substring. *)
Fixpoint contains (pattern doc_id : string) : bool :=
  String.prefix pattern doc_id
  || match doc_id with
     | EmptyString => false
     | String _ rest => contains pattern rest
     end.

(** [cleanup_stale_docs], from the contents of the storage file (absent
    when the file does not exist) and the answers typed at the prompts, each
    already stripped, to the result of the call and the contents of the file
    afterwards.  Reading an answer that is not there raises [EOFError]. *)
Definition cleanup_stale_docs (storage : option DocStatus) (answers : list string)
    : result unit * option DocStatus :=
  match storage with
  | None => (Ok tt, None)
  | Some doc_status =>
      match answers with
      | [] => (Raise "EOF when reading a line", storage)
      | choice :: answers =>
          if bool_decide (lower choice = "cancel") then (Ok tt, storage)
          else if bool_decide (lower choice = "all") then
            match answers with
            | [] => (Raise "EOF when reading a line", storage)
            | confirm :: _ =>
                if bool_decide (lower confirm = "yes")
                then (Ok tt, Some ∅)
                else (Ok tt, storage)
            end
          else
            let to_remove :=
              filter (λ doc_id, contains choice doc_id = true)
                     (map_to_list doc_status).*1 in
            match to_remove with
            | [] => (Ok tt, storage)
            | _ =>
                match answers with
                | [] => (Raise "EOF when reading a line", storage)
                | confirm :: _ =>
                    if bool_decide (lower confirm = "yes")
                    then (Ok tt, Some (foldl (λ m doc_id, delete doc_id m)
                                         doc_status to_remove))
                    else (Ok tt, storage)
                end
            end
      end
  end.

End StaleDocs.

(** * Properties *)

Section first_row.
Import Queue.
Variable before : Job → Job → bool.
Hypothesis before_irrefl : ∀ a, before a a = false.
Hypothesis before_trans :
  ∀ a b c, before a b = true → before b c = true → before a c = true.
Hypothesis before_neg_trans :
  ∀ a b c, before a b = false → before b c = false → before a c = false.

Lemma first_row_from (rows : list (string * Job)) (b : string * Job) :
  ∃ r, foldl (λ best row,
                match best with
                | None => Some row
                | Some b => if before row.2 b.2 then Some row else Some b
                end) (Some b) rows = Some r
       ∧ r ∈ b :: rows
       ∧ ∀ y, y ∈ b :: rows → before y.2 r.2 = false.
Proof using before_irrefl before_trans before_neg_trans.
  revert b. induction rows as [|x rows IH]; intros b; simpl.
  - exists b. split; [done|]. split; [left|].
    intros y Hy. apply list_elem_of_singleton in Hy as ->. apply before_irrefl.
  - destruct (before x.2 b.2) eqn:Hxb.
    + destruct (IH x) as (r & Hr & Hin & Hmin). exists r.
      split; [done|]. split; [by right|].
      intros y Hy. apply elem_of_cons in Hy as [->|Hy]; [|by apply Hmin].
      destruct (before b.2 r.2) eqn:Hbr; [|done].
      rewrite <- (Hmin x); [|left]. symmetry. by eapply before_trans.
    + destruct (IH b) as (r & Hr & Hin & Hmin). exists r.
      split; [done|]. split.
      { apply elem_of_cons in Hin as [->|Hin]; [left|right; by right]. }
      intros y Hy. apply elem_of_cons in Hy as [->|Hy]; [apply Hmin; left|].
      apply elem_of_cons in Hy as [->|Hy]; [|apply Hmin; by right].
      eapply before_neg_trans; [exact Hxb|]. apply Hmin. left.
Qed.

Lemma first_row_nil : first_row before [] = None.
Proof. reflexivity. Qed.

Lemma first_row_Some (rows : list (string * Job)) r :
  first_row before rows = Some r →
  r ∈ rows ∧ ∀ y, y ∈ rows → before y.2 r.2 = false.
Proof using before_irrefl before_trans before_neg_trans.
  destruct rows as [|b rows]; [done|]. unfold first_row. simpl.
  destruct (first_row_from rows b) as (r' & Hr & Hin & Hmin).
  rewrite Hr. intros [= <-]. done.
Qed.

Lemma first_row_None (rows : list (string * Job)) :
  first_row before rows = None → rows = [].
Proof using before_irrefl before_trans before_neg_trans.
  destruct rows as [|b rows]; [done|]. unfold first_row. simpl.
  destruct (first_row_from rows b) as (r' & Hr & _). by rewrite Hr.
Qed.

Lemma first_row_snoc (rows : list (string * Job)) x :
  first_row before (rows ++ [x])
  = match first_row before rows with
    | None => Some x
    | Some b => if before x.2 b.2 then Some x else Some b
    end.
Proof. unfold first_row. by rewrite foldl_app. Qed.

(** The row kept is strictly before every row the scan reached earlier, and
    no row reached later is strictly before it. *)
Lemma first_row_tie (rows : list (string * Job)) r :
  first_row before rows = Some r →
  ∃ l1 l2, rows = l1 ++ r :: l2
    ∧ (∀ y, y ∈ l1 → before r.2 y.2 = true)
    ∧ (∀ y, y ∈ l2 → before y.2 r.2 = false).
Proof using before_irrefl before_trans before_neg_trans.
  revert r. induction rows as [|x rows IH] using rev_ind; intros r; [done|].
  rewrite first_row_snoc.
  destruct (first_row before rows) as [b|] eqn:Hb.
  - destruct (IH b eq_refl) as (l1 & l2 & -> & Hl1 & Hl2).
    destruct (before x.2 b.2) eqn:Hxb; intros [= <-].
    + exists (l1 ++ b :: l2), []. split; [done|]. split.
      * intros y [Hy|Hy]%elem_of_app.
        -- eapply before_trans; [exact Hxb|by apply Hl1].
        -- apply elem_of_cons in Hy as [->|Hy]; [done|].
           destruct (before x.2 y.2) eqn:Hxy; [done|].
           rewrite <- Hxb. symmetry.
           eapply before_neg_trans; [exact Hxy|by apply Hl2].
      * intros y Hy. by apply elem_of_nil in Hy.
    + exists l1, (l2 ++ [x]). split; [by rewrite <- app_assoc|]. split; [done|].
      intros y [Hy|Hy]%elem_of_app; [by apply Hl2|].
      by apply list_elem_of_singleton in Hy as ->.
  - apply first_row_None in Hb as ->. intros [= <-].
    exists [], []. split; [done|]. split; intros y Hy; by apply elem_of_nil in Hy.
Qed.
End first_row.

Section queue_facts.
Import Queue.

Lemma sorts_before_irrefl a : sorts_before a a = false.
Proof. unfold sorts_before. lia. Qed.

Lemma sorts_before_trans a b c :
  sorts_before a b = true → sorts_before b c = true → sorts_before a c = true.
Proof. unfold sorts_before. lia. Qed.

Lemma sorts_before_neg_trans a b c :
  sorts_before a b = false → sorts_before b c = false → sorts_before a c = false.
Proof. unfold sorts_before. lia. Qed.

#[local] Instance by_rowid_trans : Transitive by_rowid.
Proof. intros a b c. unfold by_rowid. lia. Qed.

#[local] Instance by_rowid_total : Total by_rowid.
Proof. intros a b. unfold by_rowid. lia. Qed.

Lemma elem_of_table_rows (db : DB) id j :
  (id, j) ∈ table_rows db ↔ db !! id = Some j.
Proof.
  unfold table_rows. by rewrite merge_sort_Permutation, elem_of_map_to_list.
Qed.

Lemma table_rows_sorted (db : DB) : StronglySorted by_rowid (table_rows db).
Proof. apply (StronglySorted_merge_sort by_rowid). Qed.

Lemma StronglySorted_filter_rows (R : relation (string * Job))
    (P : string * Job → Prop) `{!∀ x, Decision (P x)} l :
  StronglySorted R l → StronglySorted R (filter P l).
Proof.
  induction 1 as [|x l Hl IH Hx]; [constructor|].
  rewrite filter_cons. case_decide; [|done].
  constructor; [done|]. apply Forall_forall. intros y [_ Hy]%list_elem_of_filter.
  by eapply Forall_forall in Hx.
Qed.

Lemma next_rowid_above (db : DB) id j :
  db !! id = Some j → rowid j < next_rowid db.
Proof.
  intros Hj%elem_of_map_to_list. unfold next_rowid.
  destruct (map_to_list db) as [|kv rows]; [by apply elem_of_nil in Hj|].
  assert (Hfirst : rowid kv.2
                   ≤ foldr (λ kv acc, Z.max (rowid kv.2) acc) (rowid kv.2) rows).
  { clear Hj. induction rows as [|x rows IH]; simpl; lia. }
  apply elem_of_cons in Hj as [<-|Hj]; [simpl in *; lia|].
  clear Hfirst. induction rows as [|x rows IH]; [by apply elem_of_nil in Hj|].
  simpl. apply elem_of_cons in Hj as [<-|Hj]; [simpl; lia|].
  specialize (IH Hj). lia.
Qed.

Lemma lookup_update_where P f (db : DB) id :
  update_where P f db !! id = (λ j, if P j then f j else j) <$> db !! id.
Proof. unfold update_where. by rewrite lookup_fmap. Qed.

Lemma lookup_delete_where P (db : DB) id j :
  delete_where P db !! id = Some j ↔ db !! id = Some j ∧ P j = false.
Proof.
  unfold delete_where. rewrite map_lookup_filter_Some. simpl.
  by rewrite not_true_iff_false.
Qed.

(** [count_where] counts the ids of the rows satisfying [P]. *)
Lemma count_where_ids P (db : DB) :
  ∃ ids : list string,
    NoDup ids ∧ length ids = count_where P db
    ∧ ∀ id, id ∈ ids ↔ ∃ j, db !! id = Some j ∧ P j = true.
Proof.
  exists (map_to_list (filter (λ kv : string * Job, P kv.2 = true) db)).*1.
  split; [apply NoDup_fst_map_to_list|]. split.
  { unfold count_where. by rewrite length_fmap, length_map_to_list. }
  intros id. rewrite list_elem_of_fmap. split.
  - intros ([id' j] & -> & Hin%elem_of_map_to_list).
    apply map_lookup_filter_Some in Hin as [Hj HP]. by exists j.
  - intros (j & Hj & HP). exists (id, j). split; [done|].
    apply elem_of_map_to_list, map_lookup_filter_Some. done.
Qed.
End queue_facts.

(** Unfolds one method down to the map operation it performs. *)
Ltac run_method :=
unfold Queue.store_after, Queue.value_of,
  Queue.enqueue, Queue.get_next_job, Queue.mark_processing,
  Queue.mark_completed, Queue.mark_failed, Queue.recover_stuck_jobs,
  Queue.clear_old_jobs, Queue.update_rows, Queue.delete_rows,
  Queue.select, Queue.execute, Queue.raise, Queue.call, Queue.bind_int,
  mbind, Queue.Q_bind, mret, Queue.Q_ret;
simpl.

Section statements.
Import Queue.

Lemma enqueue_run now uuid notebook document text prio (db : DB) :
  enqueue now uuid notebook document text prio db =
    if int64 prio then
      match db !! uuid with
      | Some _ => (Raise "UNIQUE constraint failed: jobs.id", db)
      | None =>
          (Ok uuid,
           <[uuid := new_job (next_rowid db) now notebook document text prio]> db)
      end
    else (Raise overflow_error, db).
Proof. run_method. destruct (int64 prio); [|done]. by destruct (db !! uuid). Qed.

Lemma recover_stuck_jobs_run now timeout (db : DB) :
  recover_stuck_jobs now timeout db =
    match timeout with
    | None =>
        (Ok (count_where is_processing db),
         update_where is_processing
           (set_recovered "Recovered from server restart") db)
    | Some t =>
        if int64 t then
          (Ok (count_where (is_stuck now t) db),
           update_where (is_stuck now t)
             (set_recovered "Recovered from stuck state") db)
        else (Raise overflow_error, db)
    end.
Proof. run_method. destruct timeout as [t|]; [|done]. by destruct (int64 t). Qed.

Lemma clear_old_jobs_run now days (db : DB) :
  clear_old_jobs now days db =
    if int64 days then
      (Ok (count_where (is_old now days) db), delete_where (is_old now days) db)
    else (Raise overflow_error, db).
Proof. run_method. by destruct (int64 days). Qed.
End statements.

Section mark_outcome.
Import Queue Samples.

Lemma mark_failed_run now id err (db : DB) :
  mark_failed now id err db =
    (Ok tt,
     match db !! id with
     | Some row =>
         if retry_count row <? max_retries row
         then alter (set_retry (retry_message (retry_count row) (max_retries row) err)) id db
         else alter (set_failed now (failed_message (max_retries row) err)) id db
     | None => db
     end).
Proof.
  run_method. destruct (db !! id) as [row|]; [|done].
  by destruct (retry_count row <? max_retries row).
Qed.

Example retry_message_1_2 : retry_message 0 2 "boom" = "Retry 1/2: boom".
Proof. reflexivity. Qed.

Example failed_message_2 :
  failed_message 2 "boom" = "Failed after 2 retries: boom".
Proof. reflexivity. Qed.

(** C1.  [mark_failed] on a job of the store: with [retry_count <
    max_retries] the row becomes [queued], its [retry_count] goes up by
    one and its [error] is ["Retry k/N: <error>"] for the new count [k] and
    [N = max_retries]; otherwise the row becomes [failed], [failed_at] is
    the current instant and [error] is ["Failed after N retries: <error>"].
    Every other column of the row, and every other row, is as before. *)
Theorem mark_failed_spec now id err (db : DB) (j : Job) :
  db !! id = Some j →
  value_of (mark_failed now id err) db = Ok tt
  ∧ (retry_count j < max_retries j →
     store_after (mark_failed now id err) db !! id =
       Some {| notebook_id := notebook_id j; document_id := document_id j;
               content := content j; status := Queued;
               priority := priority j;
               retry_count := retry_count j + 1;
               max_retries := max_retries j;
               created_at := created_at j; started_at := started_at j;
               completed_at := completed_at j; failed_at := failed_at j;
               error := Some ("Retry " +:+ pretty (retry_count j + 1) +:+ "/"
                              +:+ pretty (max_retries j) +:+ ": " +:+ err);
               rowid := rowid j |})
  ∧ (max_retries j ≤ retry_count j →
     store_after (mark_failed now id err) db !! id =
       Some {| notebook_id := notebook_id j; document_id := document_id j;
               content := content j; status := Failed;
               priority := priority j;
               retry_count := retry_count j;
               max_retries := max_retries j;
               created_at := created_at j; started_at := started_at j;
               completed_at := completed_at j; failed_at := Some now;
               error := Some ("Failed after " +:+ pretty (max_retries j)
                              +:+ " retries: " +:+ err);
               rowid := rowid j |})
  ∧ (∀ id', id' ≠ id →
     store_after (mark_failed now id err) db !! id' = db !! id').
Proof.
  intros Hj. unfold value_of, store_after. rewrite mark_failed_run, Hj. simpl.
  split; [done|]. split; [|split].
  - intros Hlt. apply Z.ltb_lt in Hlt. rewrite Hlt.
    by rewrite lookup_alter_eq, Hj.
  - intros Hge. apply Z.ltb_ge in Hge. rewrite Hge.
    by rewrite lookup_alter_eq, Hj.
  - intros id' Hne.
    destruct (retry_count j <? max_retries j); by rewrite lookup_alter_ne.
Qed.

Lemma mark_failed_spec_witness :
  store_after (mark_failed 120 "job" "boom") sample_db !! "job"
  = Some (mkJob "nb" "doc" "text" Queued 0 2 2 100 (Some 110) None None
                (Some "Retry 2/2: boom") 1).
Proof.
  assert (H : sample_db !! "job" = Some sample_job) by reflexivity.
  destruct (mark_failed_spec 120 "job" "boom" _ _ H) as (_ & Hretry & _ & _).
  rewrite Hretry; [reflexivity | simpl; lia].
Defined.

(** C10.  [mark_processing], [mark_completed] and [mark_failed] on an id
    that is not in the store return normally and leave the store exactly
    as it was: no row is created, none is changed. *)
Theorem mark_unknown_id_noop now id err (db : DB) :
  db !! id = None →
  mark_processing now id db = (Ok tt, db)
  ∧ mark_completed now id db = (Ok tt, db)
  ∧ mark_failed now id err db = (Ok tt, db).
Proof.
  intros Hnone. rewrite mark_failed_run, Hnone. run_method.
  split; [|split]; try done; f_equal; apply map_eq; intros i;
    rewrite lookup_alter; case_decide; subst; by rewrite ?Hnone.
Qed.

Lemma mark_unknown_id_noop_witness :
  mark_processing 5 "ghost" sample_db
    = (Ok tt, sample_db)
  ∧ mark_completed 5 "ghost" sample_db
    = (Ok tt, sample_db)
  ∧ mark_failed 5 "ghost" "boom" sample_db
    = (Ok tt, sample_db).
Proof.
  apply (mark_unknown_id_noop 5 "ghost" "boom" sample_db). reflexivity.
Defined.

Lemma mark_completed_run now id (db : DB) :
  mark_completed now id db = (Ok tt, alter (set_completed now) id db).
Proof. reflexivity. Qed.

Lemma mark_processing_run now id (db : DB) :
  mark_processing now id db = (Ok tt, alter (set_processing now) id db).
Proof. reflexivity. Qed.

(** C6, as the code has it.  After two calls of [mark_completed] on a job
    the row is [completed] with [error] cleared, and [completed_at] is the
    instant of the second call: each call stamps it again.  The store is
    the one a single call at the second instant would leave. *)
Theorem mark_completed_twice t1 t2 id (db : DB) (j : Job) :
  db !! id = Some j →
  store_after (mark_completed t2 id) (store_after (mark_completed t1 id) db)
    !! id =
    Some {| notebook_id := notebook_id j; document_id := document_id j;
            content := content j; status := Completed;
            priority := priority j; retry_count := retry_count j;
            max_retries := max_retries j;
            created_at := created_at j; started_at := started_at j;
            completed_at := Some t2; failed_at := failed_at j;
            error := None; rowid := rowid j |}
  ∧ store_after (mark_completed t2 id) (store_after (mark_completed t1 id) db)
    = store_after (mark_completed t2 id) db.
Proof.
  intros Hj. unfold store_after. rewrite !mark_completed_run. simpl. split.
  - by rewrite !lookup_alter_eq, Hj.
  - apply map_eq. intros i. destruct (decide (id = i)) as [<-|Hne].
    + by rewrite !lookup_alter_eq, Hj.
    + by rewrite !lookup_alter_ne.
Qed.

Lemma mark_completed_twice_witness :
  store_after (mark_completed 200 "job")
    (store_after (mark_completed 100 "job") sample_db) !! "job"
  = Some (mkJob "nb" "doc" "text" Completed 0 1 2 100 (Some 110) (Some 200)
                None None 1).
Proof.
  assert (H : sample_db !! "job" = Some sample_job) by reflexivity.
  exact (proj1 (mark_completed_twice 100 200 "job" sample_db sample_job H)).
Defined.

(** C6, as the claim states it, fails: the second call at a later instant
    replaces the [completed_at] written by the first. *)
Lemma mark_completed_second_call_restamps :
  completed_at <$> (store_after (mark_completed 100 "job") sample_db !! "job")
    = Some (Some 100)
  ∧ completed_at <$>
      (store_after (mark_completed 200 "job")
         (store_after (mark_completed 100 "job") sample_db) !! "job")
    = Some (Some 200).
Proof. split; reflexivity. Qed.
End mark_outcome.

Section dequeue.
Import Queue.

Lemma elem_of_queued_rows (db : DB) id j :
  (id, j) ∈ queued_rows db ↔ db !! id = Some j ∧ status j = Queued.
Proof.
  unfold queued_rows. rewrite list_elem_of_filter, elem_of_table_rows. simpl.
  by rewrite (comm (∧)).
Qed.

Lemma queued_rows_sorted (db : DB) : StronglySorted by_rowid (queued_rows db).
Proof. apply StronglySorted_filter_rows, table_rows_sorted. Qed.

(** The row picked by [ORDER BY priority DESC, created_at ASC LIMIT 1]
    among the [queued] rows. *)
Lemma first_queued_row (db : DB) :
  match first_row sorts_before (queued_rows db) with
  | Some row =>
      db !! row.1 = Some row.2 ∧ status row.2 = Queued
      ∧ ∀ id' j', db !! id' = Some j' → status j' = Queued →
          priority j' ≤ priority row.2
          ∧ (priority j' = priority row.2 → created_at row.2 ≤ created_at j')
          ∧ (priority j' = priority row.2 → created_at j' = created_at row.2 →
             rowid row.2 ≤ rowid j')
  | None => ∀ id j, db !! id = Some j → status j ≠ Queued
  end.
Proof.
  destruct (first_row sorts_before (queued_rows db)) as [[id j]|] eqn:Hfirst;
    simpl.
  - destruct (first_row_Some sorts_before sorts_before_irrefl
                sorts_before_trans sorts_before_neg_trans _ _ Hfirst)
      as [Hin Hmin].
    apply elem_of_queued_rows in Hin as [Hj Hq].
    split; [done|]. split; [done|]. intros id' j' Hj' Hq'.
    assert (Hb : sorts_before j' j = false).
    { apply (Hmin (id', j')). by apply elem_of_queued_rows. }
    unfold sorts_before in Hb. split; [lia|]. split; [lia|].
    intros Hp Hc.
    destruct (first_row_tie sorts_before sorts_before_irrefl
                sorts_before_trans sorts_before_neg_trans _ _ Hfirst)
      as (l1 & l2 & Hrows & Hl1 & _).
    assert (Hin' : (id', j') ∈ queued_rows db) by (by apply elem_of_queued_rows).
    pose proof (queued_rows_sorted db) as Hsorted. rewrite Hrows in Hin', Hsorted.
    apply elem_of_app in Hin' as [Hin'|Hin'].
    + specialize (Hl1 _ Hin'). simpl in Hl1. unfold sorts_before in Hl1. lia.
    + apply elem_of_cons in Hin' as [[= _ ->]|Hin']; [done|].
      apply StronglySorted_app_1_r, StronglySorted_cons in Hsorted as [Hall _].
      rewrite Forall_forall in Hall. exact (Hall _ Hin').
  - apply (first_row_None sorts_before sorts_before_irrefl
             sorts_before_trans sorts_before_neg_trans) in Hfirst.
    intros id j Hj Hq.
    assert (Hin : (id, j) ∈ queued_rows db) by (by apply elem_of_queued_rows).
    rewrite Hfirst in Hin. by apply elem_of_nil in Hin.
Qed.

(** Highest priority first, and within a priority the older job first: the
    jobs of [mixed_priorities] leave the queue in the order p5, p3, p1, A, B
    when each is completed before the next is asked for. *)
Example dequeue_order :
  let next history :=
    match value_of get_next_job (History.run_ops history) with
    | Ok r => Ok (job_id <$> r)
    | Raise e => Raise e
    end in
  let done id := (5, History.MarkCompleted id) in
  next Samples.mixed_priorities = Ok (Some "p5")
  ∧ next (Samples.mixed_priorities ++ [done "p5"]) = Ok (Some "p3")
  ∧ next (Samples.mixed_priorities ++ [done "p5"; done "p3"]) = Ok (Some "p1")
  ∧ next (Samples.mixed_priorities ++ [done "p5"; done "p3"; done "p1"])
    = Ok (Some "A")
  ∧ next (Samples.mixed_priorities
            ++ [done "p5"; done "p3"; done "p1"; done "A"]) = Ok (Some "B")
  ∧ next (Samples.mixed_priorities
            ++ [done "p5"; done "p3"; done "p1"; done "A"; done "B"]) = Ok None.
Proof. repeat split; reflexivity. Qed.

(** Two jobs of equal priority enqueued in the same second leave the queue
    in the order in which they were enqueued, whatever their ids. *)
Example dequeue_same_second :
  let next history :=
    match value_of get_next_job (History.run_ops history) with
    | Ok r => Ok (job_id <$> r)
    | Raise e => Raise e
    end in
  next Samples.same_second = Ok (Some "b")
  ∧ next (Samples.same_second ++ [(5, History.MarkCompleted "b")])
    = Ok (Some "a").
Proof. split; reflexivity. Qed.
End dequeue.

Section bulk.
Import Queue History Samples.

Lemma is_processing_true j : is_processing j = true ↔ status j = Processing.
Proof. unfold is_processing. by rewrite bool_decide_eq_true. Qed.

Lemma sql_lt_true a b :
  sql_lt a (Some b) = true ↔ ∃ s, a = Some s ∧ s < b.
Proof.
  destruct a as [s|]; simpl.
  - rewrite Z.ltb_lt. split; [by exists s|]. by intros (s' & [= <-] & Hlt).
  - split; [done|]. by intros (s & [=] & _).
Qed.

Lemma is_stuck_true now t j :
  is_stuck now t j = true
  ↔ status j = Processing
    ∧ 0 ≤ t ∧ ∃ s, started_at j = Some s ∧ s < now - t.
Proof.
  unfold is_stuck, datetime_now_minus. rewrite andb_true_iff, is_processing_true.
  destruct (t <? 0) eqn:Ht; simpl.
  - split; [intros [_ Hs]; by destruct (started_at j)|].
    intros (_ & ? & _). lia.
  - rewrite sql_lt_true. replace (now - t * 1) with (now - t) by lia.
    split; [intros [? ?]; split; [done|split; [lia|done]]|].
    by intros (? & _ & ?).
Qed.

Lemma is_old_true now days j :
  is_old now days j = true
  ↔ 0 ≤ days
    ∧ (status j = Completed ∨ status j = Failed)
    ∧ ((∃ t, completed_at j = Some t ∧ t < now - days * 86400)
       ∨ (∃ t, failed_at j = Some t ∧ t < now - days * 86400)).
Proof.
  unfold is_old, is_terminal, datetime_now_minus.
  rewrite andb_true_iff, !orb_true_iff, !bool_decide_eq_true.
  destruct (days <? 0) eqn:Hd; simpl.
  - destruct (completed_at j), (failed_at j); simpl;
      (split; [by intros [_ [?|?]]|]); intros (? & _); lia.
  - rewrite !sql_lt_true. split; [intros [? ?]; split; [lia|done]|].
    by intros (_ & ? & ?).
Qed.

(** C5, as the code has it.  No call of [recover_stuck_jobs], whatever its
    argument, changes the [retry_count] of a row or adds a row.  With no
    timeout it rewrites every [processing] row; with a timeout [t] that fits
    a 64-bit integer it rewrites the [processing] rows whose [started_at]
    lies more than [t] seconds back when [0 <= t], and no row at all when
    [t < 0].  A rewritten row becomes [queued] with the recovery text as
    [error] and is otherwise unchanged, every other row is untouched, and
    the number returned is the number of rows rewritten.  With a timeout
    outside the 64-bit range the call raises [OverflowError] and the table
    stays as it was. *)
Theorem recover_stuck_jobs_spec now timeout (db : DB) :
  let in_range := match timeout with None => true | Some t => int64 t end in
  let stuck (j : Job) :=
    status j = Processing
    ∧ match timeout with
      | None => True
      | Some t => 0 ≤ t ∧ ∃ s, started_at j = Some s ∧ s < now - t
      end in
  let msg := match timeout with
             | None => "Recovered from server restart"
             | Some _ => "Recovered from stuck state"
             end in
  let db' := store_after (recover_stuck_jobs now timeout) db in
  (∀ id j j', db !! id = Some j → db' !! id = Some j' →
     retry_count j' = retry_count j)
  ∧ (∀ id, db !! id = None → db' !! id = None)
  ∧ (in_range = true →
       (∀ id j, db !! id = Some j → stuck j →
          db' !! id =
            Some {| notebook_id := notebook_id j; document_id := document_id j;
                    content := content j; status := Queued;
                    priority := priority j; retry_count := retry_count j;
                    max_retries := max_retries j;
                    created_at := created_at j; started_at := started_at j;
                    completed_at := completed_at j; failed_at := failed_at j;
                    error := Some msg; rowid := rowid j |})
       ∧ (∀ id j, db !! id = Some j → ¬ stuck j → db' !! id = Some j)
       ∧ ∃ ids : list string,
           value_of (recover_stuck_jobs now timeout) db = Ok (length ids)
           ∧ NoDup ids
           ∧ ∀ id, id ∈ ids ↔ ∃ j, db !! id = Some j ∧ stuck j)
  ∧ (in_range = false →
       value_of (recover_stuck_jobs now timeout) db = Raise overflow_error
       ∧ db' = db).
Proof.
  intros in_range stuck msg db'.
  destruct in_range eqn:Hrange; subst in_range.
  2:{ destruct timeout as [t|]; [|done].
      assert (Hrun : recover_stuck_jobs now (Some t) db = (Raise overflow_error, db))
        by (by rewrite recover_stuck_jobs_run, Hrange).
      assert (Hdb : db' = db) by (subst db'; unfold store_after; by rewrite Hrun).
      rewrite Hdb. split; [congruence|]. split; [done|]. split; [done|].
      intros _. unfold value_of. by rewrite Hrun. }
  set (P := match timeout with
            | None => is_processing
            | Some t => is_stuck now t
            end).
  assert (Hrun : recover_stuck_jobs now timeout db
                 = (Ok (count_where P db), update_where P (set_recovered msg) db)).
  { rewrite recover_stuck_jobs_run. subst P msg.
    destruct timeout; [by rewrite Hrange|done]. }
  assert (HP : ∀ j, P j = true ↔ stuck j).
  { intros j. subst P stuck. destruct timeout as [t|]; simpl.
    - apply is_stuck_true.
    - rewrite is_processing_true. split; [done|by intros [? _]]. }
  assert (Hdb' : ∀ id, db' !! id
                       = (λ j, if P j then set_recovered msg j else j) <$> db !! id).
  { intros id. subst db'. unfold store_after. rewrite Hrun. simpl.
    apply lookup_update_where. }
  split; [|split; [|split; [|done]]].
  - intros id j j' Hj. rewrite Hdb', Hj. simpl. intros [= <-].
    by destruct (P j).
  - intros id Hnone. by rewrite Hdb', Hnone.
  - intros _. split; [|split].
    + intros id j Hj Hs. rewrite Hdb', Hj. simpl.
      apply HP in Hs. by rewrite Hs.
    + intros id j Hj Hs. rewrite Hdb', Hj. simpl.
      destruct (P j) eqn:HPj; [|done]. by apply HP in HPj.
    + destruct (count_where_ids P db) as (ids & Hnd & Hlen & Hids).
      exists ids. unfold value_of. rewrite Hrun. simpl. rewrite Hlen.
      split; [done|]. split; [done|].
      intros id. rewrite Hids. by setoid_rewrite HP.
Qed.

Lemma recover_stuck_jobs_spec_witness :
  store_after (recover_stuck_jobs 1000 (Some 600)) sample_db !! "job"
  = Some (mkJob "nb" "doc" "text" Queued 0 1 2 100 (Some 110) None None
                (Some "Recovered from stuck state") 1).
Proof.
  destruct (recover_stuck_jobs_spec 1000 (Some 600) sample_db)
    as (_ & _ & Hin & _).
  destruct (Hin eq_refl) as (Hstuck & _).
  apply (Hstuck "job" sample_job); [reflexivity|].
  split; [reflexivity|]. split; [lia|].
  exists 110. split; [reflexivity|lia].
Defined.

(** C5, as the claim states it, fails for two kinds of numeric timeout.
    The row of [sample_db] is [processing] and was started at instant 110.
    At instant 1000 with the timeout [-5] it was started before
    [1000 - (-5)], yet it is not set back to [queued]: the modifier text
    is ['--5 seconds'], [datetime] gives [NULL] and no row matches.  With
    the timeout [2^63] the call returns no number: binding the argument
    raises [OverflowError]. *)
Lemma recover_stuck_jobs_numeric_timeout_refused :
  sample_db !! "job" = Some sample_job
  ∧ status sample_job = Processing
  ∧ (∃ s, started_at sample_job = Some s ∧ s < 1000 - (-5))
  ∧ recover_stuck_jobs 1000 (Some (-5)) sample_db = (Ok 0%nat, sample_db)
  ∧ recover_stuck_jobs 1000 (Some (2 ^ 63)) sample_db
    = (Raise overflow_error, sample_db).
Proof.
  split; [reflexivity|]. split; [reflexivity|]. split; [|split].
  - exists 110. split; [reflexivity|lia].
  - reflexivity.
  - reflexivity.
Qed.

(** C7, as the code has it.  No call of [clear_old_jobs] touches a
    [queued] or [processing] row.  For [days] within the 64-bit range and
    [0 <= days] it deletes exactly the rows whose status is [completed] or
    [failed] and for which [completed_at] or [failed_at] (either of the
    two, whichever the status) lies more than [days] days back; for
    [days < 0] it deletes nothing.  It returns the number of rows deleted
    and leaves every other row as it was.  For a row that carries only the
    timestamp of its own terminal state, the test is the one on its
    terminal timestamp.  With [days] outside the 64-bit range the call
    raises [OverflowError] and the table stays as it was. *)
Theorem clear_old_jobs_spec now days (db : DB) :
  let cutoff := now - days * 86400 in
  let old (j : Job) :=
    0 ≤ days
    ∧ (status j = Completed ∨ status j = Failed)
    ∧ ((∃ t, completed_at j = Some t ∧ t < cutoff)
       ∨ (∃ t, failed_at j = Some t ∧ t < cutoff)) in
  let db' := store_after (clear_old_jobs now days) db in
  (∀ id j, db !! id = Some j →
     status j = Queued ∨ status j = Processing → db' !! id = Some j)
  ∧ (int64 days = true →
       (∀ id j, db' !! id = Some j ↔ db !! id = Some j ∧ ¬ old j)
       ∧ (∀ id j, db !! id = Some j → status j = Completed →
            failed_at j = None →
            (db' !! id = None
             ↔ 0 ≤ days ∧ ∃ t, completed_at j = Some t ∧ t < cutoff))
       ∧ (∀ id j, db !! id = Some j → status j = Failed →
            completed_at j = None →
            (db' !! id = None
             ↔ 0 ≤ days ∧ ∃ t, failed_at j = Some t ∧ t < cutoff))
       ∧ ∃ ids : list string,
           value_of (clear_old_jobs now days) db = Ok (length ids)
           ∧ NoDup ids
           ∧ ∀ id, id ∈ ids ↔ ∃ j, db !! id = Some j ∧ old j)
  ∧ (int64 days = false →
       value_of (clear_old_jobs now days) db = Raise overflow_error
       ∧ db' = db).
Proof.
  intros cutoff old db'.
  destruct (int64 days) eqn:Hrange.
  2:{ assert (Hrun : clear_old_jobs now days db = (Raise overflow_error, db))
        by (by rewrite clear_old_jobs_run, Hrange).
      assert (Hdb : db' = db) by (subst db'; unfold store_after; by rewrite Hrun).
      rewrite Hdb. split; [done|]. split; [done|].
      intros _. unfold value_of. by rewrite Hrun. }
  assert (Hrun : clear_old_jobs now days db
                 = (Ok (count_where (is_old now days) db),
                    delete_where (is_old now days) db))
    by (by rewrite clear_old_jobs_run, Hrange).
  assert (HP : ∀ j, is_old now days j = true ↔ old j)
    by (intros j; by apply is_old_true).
  assert (Hkeep : ∀ id j, db' !! id = Some j ↔ db !! id = Some j ∧ ¬ old j).
  { intros id j. subst db'. unfold store_after. rewrite Hrun. simpl.
    rewrite lookup_delete_where, <- HP. by rewrite not_true_iff_false. }
  assert (Hgone : ∀ id j, db !! id = Some j → (db' !! id = None ↔ old j)).
  { intros id j Hj. split.
    - intros Hnone. destruct (decide (is_old now days j = true)) as [Ho|Ho];
        [by apply HP|].
      assert (db' !! id = Some j) as Hsome by (apply Hkeep; by rewrite <- HP).
      congruence.
    - intros Ho. destruct (db' !! id) as [j'|] eqn:Hj'; [|done].
      apply Hkeep in Hj' as [Hj'' Hno]. by simplify_eq. }
  split; [|split; [|done]].
  - intros id j Hj Hst. apply Hkeep. split; [done|].
    intros (_ & [Hc|Hf] & _); destruct Hst; congruence.
  - intros _. split; [done|]. split; [|split].
    + intros id j Hj Hst Hf. rewrite (Hgone id j Hj). subst old. simpl.
      rewrite Hf. split.
      * by intros (? & _ & [Ho|(t & [=] & _)]).
      * intros [? Ho]. split; [done|]. split; [by left|by left].
    + intros id j Hj Hst Hc. rewrite (Hgone id j Hj). subst old. simpl.
      rewrite Hc. split.
      * by intros (? & _ & [(t & [=] & _)|Ho]).
      * intros [? Ho]. split; [done|]. split; [by right|by right].
    + destruct (count_where_ids (is_old now days) db)
        as (ids & Hnd & Hlen & Hids).
      exists ids. unfold value_of. rewrite Hrun. simpl.
      split; [by rewrite Hlen|]. split; [done|].
      intros id. rewrite Hids. by setoid_rewrite HP.
Qed.

(** The job of [completed_history] was completed at instant 20; thirty-one
    days later [clear_old_jobs 30] deletes it. *)
Lemma clear_old_jobs_spec_witness :
  store_after (clear_old_jobs 2678420 30) (run_ops completed_history) !! "job"
  = None.
Proof.
  destruct (clear_old_jobs_spec 2678420 30 (run_ops completed_history))
    as (_ & Hin & _).
  destruct (Hin eq_refl) as (_ & Hcompleted & _).
  apply (Hcompleted "job"
           (mkJob "nb" "doc" "text" Completed 0 0 2 0 (Some 10) (Some 20)
                  None None 1));
    [reflexivity|reflexivity|reflexivity|].
  split; [lia|]. exists 20. split; [reflexivity|lia].
Defined.

(** C7, as the claim states it, fails.  The job below failed for good at
    instant 0 and was marked completed forty days later; one second after
    that its terminal timestamp, [completed_at], is one second old, yet
    [clear_old_jobs 30] deletes the row because the [failed_at] it still
    carries is forty days old. *)
Lemma clear_old_jobs_deletes_recently_completed :
  status <$> (run_ops failed_then_completed !! "job") = Some Completed
  ∧ completed_at <$> (run_ops failed_then_completed !! "job")
    = Some (Some 3456000)
  ∧ ¬ (3456000 < 3456001 - 30 * 86400)
  ∧ store_after (clear_old_jobs 3456001 30) (run_ops failed_then_completed)
      !! "job" = None.
Proof. split; [|split; [|split]]; [reflexivity|reflexivity|lia|reflexivity]. Qed.
End bulk.

Section worker.
Import Queue History Samples.

Lemma worker_iteration_run cb t_start t_end (db : DB) :
  worker_iteration cb t_start t_end db =
    (Ok tt,
     match first_row sorts_before (queued_rows db) with
     | Some row =>
         store_after (outcome_of cb t_end (row_dict row))
           (store_after (mark_processing t_start row.1) db)
     | None => db
     end).
Proof.
  unfold worker_iteration, try_except, outcome_of, verify_and_mark,
    store_after, get_next_job, select, call, mbind, Q_bind.
  simpl.
  destruct (first_row sorts_before (queued_rows db)) as [row|]; simpl; [|done].
  destruct (processor_func cb _ _ _) as [[]|e]; simpl;
    [|by rewrite mark_failed_run].
  destruct (status_checker_func cb) as [chk|]; simpl; [|done].
  destruct (chk _) as [[doc_status error_message]|e]; simpl;
    [|by rewrite mark_failed_run].
  repeat case_bool_decide; by rewrite ?mark_failed_run.
Qed.

Lemma mark_failed_not_completed now id err (db : DB) j :
  db !! id = Some j →
  ∃ j', store_after (mark_failed now id err) db !! id = Some j'
        ∧ status j' ≠ Completed.
Proof.
  intros Hj. unfold store_after. rewrite mark_failed_run, Hj. simpl.
  destruct (retry_count j <? max_retries j); rewrite lookup_alter_eq, Hj;
    eexists; (split; [reflexivity|done]).
Qed.

Lemma mark_completed_completed now id (db : DB) j :
  db !! id = Some j →
  ∃ j', store_after (mark_completed now id) db !! id = Some j'
        ∧ status j' = Completed.
Proof.
  intros Hj. unfold store_after. rewrite mark_completed_run. simpl.
  rewrite lookup_alter_eq, Hj. by eexists.
Qed.

(** C2.  A pass of the worker that took [job] and whose processing callback
    returned normally.  With a verification callback: the job is marked
    completed when, and only when, the callback returns the status
    ["completed"]; on ["failed"], on any other status, and when the
    callback raises, [mark_failed] is called and the job does not end
    [completed].  Without a verification callback [mark_completed] is
    called. *)
Theorem worker_verification_spec cb t_start t_end (db : DB) (job : JobDict) :
  value_of get_next_job db = Ok (Some job) →
  processor_func cb (d_notebook_id job) (d_document_id job) (d_content job)
    = Ok tt →
  let started := store_after (mark_processing t_start (job_id job)) db in
  let final := store_after (worker_iteration cb t_start t_end) db in
  let ends_completed :=
    ∃ j, final !! job_id job = Some j ∧ status j = Completed in
  match status_checker_func cb with
  | None =>
      final = store_after (mark_completed t_end (job_id job)) started
      ∧ ends_completed
  | Some status_checker =>
      match status_checker (d_document_id job) with
      | Ok (doc_status, error_message) =>
          (doc_status = "completed" →
             final = store_after (mark_completed t_end (job_id job)) started)
          ∧ (doc_status = "failed" →
             final = store_after
                       (mark_failed t_end (job_id job)
                          (or_default error_message "Document processing failed"))
                       started)
          ∧ (doc_status ≠ "completed" → doc_status ≠ "failed" →
             final = store_after
                       (mark_failed t_end (job_id job)
                          (unexpected_status_message doc_status))
                       started)
          ∧ (ends_completed ↔ doc_status = "completed")
      | Raise e =>
          final = store_after (mark_failed t_end (job_id job) e) started
          ∧ ¬ ends_completed
      end
  end.
Proof.
  intros Hnext Hproc started final ends_completed.
  assert (∃ row, first_row sorts_before (queued_rows db) = Some row
                 ∧ job = row_dict row) as (row & Hfirst & ->).
  { unfold value_of, get_next_job, select in Hnext. simpl in Hnext.
    destruct (first_row sorts_before (queued_rows db)) as [row|]; [|done].
    exists row. by simplify_eq/=. }
  pose proof (first_queued_row db) as Hrow. rewrite Hfirst in Hrow.
  destruct Hrow as (Hj & _). simpl in *.
  assert (Hstarted : started !! row.1 = Some (set_processing t_start row.2)).
  { subst started. unfold store_after. rewrite mark_processing_run. simpl.
    by rewrite lookup_alter_eq, Hj. }
  assert (Hfinal : final = store_after (outcome_of cb t_end (row_dict row)) started).
  { subst final started. unfold store_after at 1.
    by rewrite worker_iteration_run, Hfirst. }
  unfold outcome_of in Hfinal. simpl in Hfinal. rewrite Hproc in Hfinal.
  subst ends_completed.
  destruct (status_checker_func cb) as [chk|].
  - destruct (chk (document_id row.2)) as [[doc_status error_message]|e].
    + repeat case_bool_decide; subst; (split; [|split; [|split]]); try done.
      * split; [done|]. intros _. rewrite Hfinal.
        by apply (mark_completed_completed _ _ _ _ Hstarted).
      * split; [|done]. intros (j & Hj' & Hc). rewrite Hfinal in Hj'.
        destruct (mark_failed_not_completed t_end row.1
                    (or_default error_message "Document processing failed")
                    _ _ Hstarted) as (j' & Hj'' & Hn).
        congruence.
      * split; [|done]. intros (j & Hj' & Hc). rewrite Hfinal in Hj'.
        destruct (mark_failed_not_completed t_end row.1
                    (unexpected_status_message doc_status) _ _ Hstarted)
          as (j' & Hj'' & Hn).
        congruence.
    + split; [done|]. intros (j & Hj' & Hc). rewrite Hfinal in Hj'.
      destruct (mark_failed_not_completed t_end row.1 e _ _ Hstarted)
        as (j' & Hj'' & Hn).
      congruence.
  - split; [done|]. rewrite Hfinal.
    by apply (mark_completed_completed _ _ _ _ Hstarted).
Qed.

Lemma worker_verification_spec_witness :
  store_after (worker_iteration silent_failure 10 20) one_queued
  = store_after
      (mark_failed 20 "job" (or_default (Some "index write failed")
                               "Document processing failed"))
      (store_after (mark_processing 10 "job") one_queued).
Proof.
  assert (Hnext : value_of get_next_job one_queued
                  = Ok (Some (mkJobDict "job" "nb" "doc" "text" 0 2)))
    by reflexivity.
  assert (Hproc : processor_func silent_failure "nb" "doc" "text" = Ok tt)
    by reflexivity.
  pose proof (worker_verification_spec silent_failure 10 20 one_queued _
                Hnext Hproc) as H.
  simpl in H. destruct H as (_ & Hfailed & _). by apply Hfailed.
Defined.

Example silent_failure_requeues :
  status <$> (store_after (worker_iteration silent_failure 10 20) one_queued
                !! "job") = Some Queued
  ∧ error <$> (store_after (worker_iteration silent_failure 10 20) one_queued
                 !! "job") = Some (Some "Retry 1/2: index write failed").
Proof. split; reflexivity. Qed.
End worker.

Section histories.
Import Queue History Samples.

Lemma row_step_processing_rtc t j : rtc row_step j (set_processing t j).
Proof. apply rtc_once. constructor. Qed.

Lemma mark_processing_row now id0 (db : DB) id j' :
  store_after (mark_processing now id0) db !! id = Some j' →
  ∃ j, db !! id = Some j ∧ rtc row_step j j'.
Proof.
  unfold store_after. rewrite mark_processing_run. simpl.
  rewrite lookup_alter. case_decide as Hid; [subst|by eauto using rtc_refl].
  destruct (db !! id) as [j|]; [|done]. intros [= <-].
  eauto using row_step_processing_rtc.
Qed.

Lemma mark_completed_row now id0 (db : DB) id j' :
  store_after (mark_completed now id0) db !! id = Some j' →
  ∃ j, db !! id = Some j ∧ rtc row_step j j'.
Proof.
  unfold store_after. rewrite mark_completed_run. simpl.
  rewrite lookup_alter. case_decide as Hid; [subst|by eauto using rtc_refl].
  destruct (db !! id) as [j|]; [|done]. intros [= <-].
  exists j. split; [done|]. apply rtc_once. constructor.
Qed.

Lemma mark_failed_row now id0 err (db : DB) id j' :
  store_after (mark_failed now id0 err) db !! id = Some j' →
  ∃ j, db !! id = Some j ∧ rtc row_step j j'.
Proof.
  unfold store_after. rewrite mark_failed_run. simpl.
  destruct (db !! id0) as [row|] eqn:Hrow; [|by eauto using rtc_refl].
  destruct (retry_count row <? max_retries row) eqn:Hlt;
    (rewrite lookup_alter; case_decide as Hid; [subst|by eauto using rtc_refl]);
    rewrite Hrow; intros [= <-]; exists row; (split; [done|]);
    apply rtc_once; constructor; lia.
Qed.

Lemma outcome_of_cases cb t_end job :
  outcome_of cb t_end job = mark_completed t_end (job_id job)
  ∨ ∃ msg, outcome_of cb t_end job = mark_failed t_end (job_id job) msg.
Proof.
  unfold outcome_of. destruct (processor_func cb _ _ _); [|by eauto].
  destruct (status_checker_func cb) as [chk|]; [|by eauto].
  destruct (chk _) as [[doc_status error_message]|]; [|by eauto].
  repeat case_bool_decide; eauto.
Qed.

Lemma update_rows_row P msg (db : DB) id j' :
  (∀ j, P j = true → status j = Processing) →
  store_after (update_rows P (set_recovered msg)) db !! id = Some j' →
  ∃ j, db !! id = Some j ∧ rtc row_step j j'.
Proof.
  intros HP. unfold store_after, update_rows. simpl.
  rewrite lookup_update_where. destruct (db !! id) as [j|]; [|done]. simpl.
  intros [= <-]. exists j. split; [done|].
  destruct (P j) eqn:HPj; [|done]. apply rtc_once. constructor. by apply HP.
Qed.

(** A row found after a call is the row inserted by the call, or comes from
    the row of the same id by the row updates of the statements. *)
Lemma run_op_row now op (db : DB) id j' :
  run_op now op db !! id = Some j' →
  (db !! id = None
   ∧ ∃ notebook document text prio,
       op = Enqueue id notebook document text prio
       ∧ j' = new_job (next_rowid db) now notebook document text prio)
  ∨ ∃ j, db !! id = Some j ∧ rtc row_step j j'.
Proof.
  destruct op as [uuid nb doc text prio| |id0|id0|id0 err|timeout|days|cb t_end];
    simpl.
  - unfold store_after. rewrite enqueue_run.
    destruct (int64 prio); [|by eauto using rtc_refl].
    destruct (db !! uuid) eqn:Huuid; simpl; [by eauto using rtc_refl|].
    rewrite lookup_insert. case_decide as Hid; [subst|by eauto using rtc_refl].
    intros [= <-]. left. eauto 10.
  - by eauto using rtc_refl.
  - intros H. right. by eapply mark_processing_row.
  - intros H. right. by eapply mark_completed_row.
  - intros H. right. by eapply mark_failed_row.
  - unfold store_after. rewrite recover_stuck_jobs_run.
    destruct timeout as [t|]; [destruct (int64 t)|]; simpl;
      [|by eauto using rtc_refl|]; intros H; right.
    + eapply update_rows_row; [|exact H]. unfold is_stuck. intros j Hs.
      apply andb_true_iff in Hs as [Hs _]. by apply bool_decide_eq_true in Hs.
    + eapply update_rows_row; [|exact H]. intros j Hs.
      by apply bool_decide_eq_true in Hs.
  - unfold store_after. rewrite clear_old_jobs_run.
    destruct (int64 days); simpl; [|by eauto using rtc_refl].
    intros [H _]%lookup_delete_where. by eauto using rtc_refl.
  - unfold store_after at 1. rewrite worker_iteration_run. simpl.
    destruct (first_row sorts_before (queued_rows db)) as [row|];
      [|by eauto using rtc_refl].
    intros H. right.
    assert (∃ j1, store_after (mark_processing now row.1) db !! id = Some j1
                  ∧ rtc row_step j1 j') as (j1 & Hj1 & Hstep).
    { destruct (outcome_of_cases cb t_end (row_dict row)) as [Heq|[msg Heq]];
        rewrite Heq in H.
      - by eapply mark_completed_row.
      - by eapply mark_failed_row. }
    apply mark_processing_row in Hj1 as (j & Hj & Hstep').
    exists j. split; [done|]. by etrans.
Qed.

Lemma row_step_budget j j' :
  row_step j j' →
  retry_count j ≤ max_retries j
  ∧ (status j = Failed → retry_count j = max_retries j) →
  retry_count j' ≤ max_retries j'
  ∧ (status j' = Failed → retry_count j' = max_retries j').
Proof. destruct 1; simpl; intros [Hle Hf]; split; try done; lia. Qed.

Lemma row_step_created_at j j' : rtc row_step j j' → created_at j' = created_at j.
Proof.
  induction 1 as [|j j1 j2 Hstep _ IH]; [done|]. rewrite IH. by destruct Hstep.
Qed.

Lemma row_step_rowid j j' : rtc row_step j j' → rowid j' = rowid j.
Proof.
  induction 1 as [|j j1 j2 Hstep _ IH]; [done|]. rewrite IH. by destruct Hstep.
Qed.

Lemma run_ops_snoc history call :
  run_ops (history ++ [call]) = run_op call.1 call.2 (run_ops history).
Proof. unfold run_ops. by rewrite foldl_app. Qed.

(** [retry_count] stays within the budget, and a [failed] row has used all
    of it. *)
Lemma run_ops_budget history id j :
  run_ops history !! id = Some j →
  retry_count j ≤ max_retries j
  ∧ (status j = Failed → retry_count j = max_retries j).
Proof.
  revert id j. induction history as [|[now op] history IH] using rev_ind;
    intros id j.
  - unfold run_ops. simpl. by rewrite lookup_empty.
  - rewrite run_ops_snoc. simpl. intros Hj.
    apply run_op_row in Hj
      as [[_ (nb & doc & text & prio & _ & ->)]|(j0 & Hj0 & Hsteps)].
    + simpl. split; [lia|done].
    + apply IH in Hj0. clear -Hj0 Hsteps.
      induction Hsteps as [|j0 j1 j2 Hstep _ IHs]; [done|].
      apply IHs. by eapply row_step_budget.
Qed.

(** No call changes the rowid of a row. *)
Lemma run_op_rowid now op (db : DB) id j j' :
  db !! id = Some j → run_op now op db !! id = Some j' → rowid j' = rowid j.
Proof.
  intros Hj Hj'.
  apply run_op_row in Hj' as [[Hnone _]|(j0 & Hj0 & Hsteps)]; [congruence|].
  rewrite Hj in Hj0. injection Hj0 as <-. by apply row_step_rowid.
Qed.

(** In a table made by calls of the queue no two rows share a rowid. *)
Lemma run_ops_rowid history id j id' j' :
  run_ops history !! id = Some j → run_ops history !! id' = Some j' →
  rowid j = rowid j' → id = id'.
Proof.
  revert id j id' j'.
  induction history as [|[now op] history IH] using rev_ind; intros id j id' j'.
  - unfold run_ops. simpl. by rewrite lookup_empty.
  - rewrite run_ops_snoc. simpl. intros Hj Hj' Heq.
    apply run_op_row in Hj
      as [[_ (nb & doc & text & prio & Hop & ->)]|(j0 & Hj0 & Hs)];
      apply run_op_row in Hj'
        as [[_ (nb' & doc' & text' & prio' & Hop' & ->)]|(j0' & Hj0' & Hs')].
    + rewrite Hop in Hop'. by injection Hop'.
    + apply row_step_rowid in Hs'. apply next_rowid_above in Hj0'.
      simpl in Heq. lia.
    + apply row_step_rowid in Hs. apply next_rowid_above in Hj0.
      simpl in Heq. lia.
    + apply row_step_rowid in Hs, Hs'. eapply IH; [done|done|congruence].
Qed.

Lemma mark_processing_other now id0 (db : DB) id :
  id ≠ id0 → store_after (mark_processing now id0) db !! id = db !! id.
Proof. intros Hne. unfold store_after. simpl. by rewrite lookup_alter_ne. Qed.

Lemma mark_completed_other now id0 (db : DB) id :
  id ≠ id0 → store_after (mark_completed now id0) db !! id = db !! id.
Proof. intros Hne. unfold store_after. simpl. by rewrite lookup_alter_ne. Qed.

Lemma mark_failed_other now id0 err (db : DB) id :
  id ≠ id0 → store_after (mark_failed now id0 err) db !! id = db !! id.
Proof.
  intros Hne. unfold store_after. rewrite mark_failed_run. simpl.
  destruct (db !! id0) as [row|]; [|done].
  destruct (retry_count row <? max_retries row); by rewrite lookup_alter_ne.
Qed.

Lemma outcome_of_other cb t_end job (db : DB) id :
  id ≠ job_id job → store_after (outcome_of cb t_end job) db !! id = db !! id.
Proof.
  intros Hne. destruct (outcome_of_cases cb t_end job) as [->|[msg ->]];
    auto using mark_completed_other, mark_failed_other.
Qed.

(** A pass of the worker changes at most the row it took, and that row was
    [queued]. *)
Lemma worker_iteration_other cb t_start t_end (db : DB) id j :
  db !! id = Some j → status j ≠ Queued →
  store_after (worker_iteration cb t_start t_end) db !! id = Some j.
Proof.
  intros Hj Hst. unfold store_after at 1. rewrite worker_iteration_run. simpl.
  pose proof (first_queued_row db) as Hrow.
  destruct (first_row sorts_before (queued_rows db)) as [row|]; [|done].
  destruct Hrow as (Hrow & Hq & _).
  assert (id ≠ row.1) by (intros ->; congruence).
  by rewrite outcome_of_other, mark_processing_other.
Qed.

(** A [completed] or [failed] row is final for the worker and for
    maintenance: they leave it as it is, or [clear_old_jobs] deletes it. *)
Lemma run_op_terminal now op (db : DB) id j j' :
  worker_driven op →
  db !! id = Some j → status j = Completed ∨ status j = Failed →
  run_op now op db !! id = Some j' → j' = j.
Proof.
  intros Hop Hj Hst.
  destruct op as [uuid nb doc text prio| |id0|id0|id0 err|timeout|days|cb t_end];
    simpl in *; try done.
  - unfold store_after. rewrite enqueue_run.
    destruct (int64 prio); simpl; [|congruence].
    destruct (db !! uuid) eqn:Huuid; simpl; [congruence|].
    rewrite lookup_insert_ne by congruence. congruence.
  - unfold store_after. simpl. congruence.
  - assert (Hnp : is_processing j = false).
    { unfold is_processing. apply bool_decide_eq_false. destruct Hst; congruence. }
    unfold store_after. rewrite recover_stuck_jobs_run.
    destruct timeout as [t|]; [destruct (int64 t)|]; simpl; [|congruence|];
      rewrite lookup_update_where, Hj; simpl;
      unfold is_stuck; rewrite Hnp; simpl; congruence.
  - unfold store_after. rewrite clear_old_jobs_run.
    destruct (int64 days); simpl; [|congruence].
    intros [H _]%lookup_delete_where. congruence.
  - rewrite (worker_iteration_other _ _ _ _ _ _ Hj); [congruence|].
    destruct Hst; congruence.
Qed.

Lemma new_job_one_terminal_stamp row now notebook document text prio :
  one_terminal_stamp (new_job row now notebook document text prio).
Proof. by split. Qed.

(** The worker and maintenance keep [one_terminal_stamp]. *)
Lemma run_op_one_terminal_stamp now op (db : DB) :
  worker_driven op →
  (∀ id j, db !! id = Some j → one_terminal_stamp j) →
  ∀ id j, run_op now op db !! id = Some j → one_terminal_stamp j.
Proof.
  intros Hop Hinv id j'.
  destruct op as [uuid nb doc text prio| |id0|id0|id0 err|timeout|days|cb t_end];
    simpl in *; try done.
  - unfold store_after. rewrite enqueue_run.
    destruct (int64 prio); simpl; [|by apply Hinv].
    destruct (db !! uuid) eqn:Huuid; simpl; [by apply Hinv|].
    rewrite lookup_insert. case_decide; [|by apply Hinv].
    intros [= <-]. apply new_job_one_terminal_stamp.
  - apply Hinv.
  - unfold store_after. rewrite recover_stuck_jobs_run.
    assert (∀ P msg, (∀ j, P j = true → status j = Processing) →
              update_where P (set_recovered msg) db !! id = Some j' →
              one_terminal_stamp j') as Hupd.
    { intros P msg HP. rewrite lookup_update_where.
      destruct (db !! id) as [j|] eqn:Hj; [|done]. simpl. intros [= <-].
      specialize (Hinv id j Hj). destruct (P j) eqn:HPj; [|done].
      apply HP in HPj. destruct Hinv as [Hc Hf].
      split; simpl; intros Hsome;
        [destruct (Hc Hsome)|destruct (Hf Hsome)]; congruence. }
    destruct timeout as [t|]; [destruct (int64 t)|]; simpl;
      [|by apply Hinv|]; apply Hupd.
    + unfold is_stuck. intros j [Hs _]%andb_true_iff.
      by apply bool_decide_eq_true in Hs.
    + intros j Hs. by apply bool_decide_eq_true in Hs.
  - unfold store_after. rewrite clear_old_jobs_run.
    destruct (int64 days); simpl; [|by apply Hinv].
    intros [H _]%lookup_delete_where. by eapply Hinv.
  - unfold store_after at 1. rewrite worker_iteration_run. simpl.
    pose proof (first_queued_row db) as Hrow.
    destruct (first_row sorts_before (queued_rows db)) as [row|];
      [|by apply Hinv].
    destruct Hrow as (Hrow & Hq & _).
    destruct (decide (id = row.1)) as [->|Hne].
    + destruct (Hinv _ _ Hrow) as [Hc Hf].
      assert (completed_at row.2 = None) as Hcn.
      { destruct (completed_at row.2) eqn:E; [|done].
        destruct Hc; [done|congruence]. }
      assert (failed_at row.2 = None) as Hfn.
      { destruct (failed_at row.2) eqn:E; [|done].
        destruct Hf; [done|congruence]. }
      assert (Hstarted : store_after (mark_processing now row.1) db !! row.1
                         = Some (set_processing now row.2)).
      { unfold store_after. simpl. by rewrite lookup_alter_eq, Hrow. }
      destruct (outcome_of_cases cb t_end (row_dict row)) as [->|[msg ->]].
      * unfold store_after at 1. rewrite mark_completed_run. simpl.
        rewrite lookup_alter_eq, Hstarted. simpl. intros [= <-].
        split; simpl; [done|congruence].
      * unfold store_after at 1. rewrite mark_failed_run. simpl.
        rewrite Hstarted. simpl.
        destruct (retry_count row.2 <? max_retries row.2);
          rewrite lookup_alter_eq, Hstarted; simpl; intros [= <-];
          split; simpl; intros ?; split; congruence.
    + rewrite outcome_of_other, mark_processing_other by done. apply Hinv.
Qed.

(** In a history made by the worker and maintenance alone every row carries
    at most the timestamp of its own terminal state. *)
Lemma worker_history_one_terminal_stamp history id j :
  Forall (λ call : Z * Op, worker_driven call.2) history →
  run_ops history !! id = Some j → one_terminal_stamp j.
Proof.
  revert id j. induction history as [|[now op] history IH] using rev_ind;
    intros id j Hall.
  - unfold run_ops. simpl. by rewrite lookup_empty.
  - apply Forall_app in Hall as [Hall Hop]. apply Forall_cons in Hop as [Hop _].
    rewrite run_ops_snoc. simpl in *.
    apply run_op_one_terminal_stamp; [done|]. intros id' j'. by apply IH.
Qed.

(** C3, as the code has it.  After any history of calls on a fresh table,
    no row has [retry_count] above [max_retries].  A row whose [retry_count]
    equals [max_retries] may still be [queued] or [processing], for its last
    attempt; the next [mark_failed] makes it [failed] and leaves
    [retry_count] as it is.  A [failed] row has [retry_count = max_retries],
    and neither [mark_failed], nor the worker, nor recovery and the other
    maintenance calls make it [queued] again. *)
Theorem retry_budget_spec history id (j : Job) :
  run_ops history !! id = Some j →
  retry_count j ≤ max_retries j
  ∧ (retry_count j = max_retries j →
     ∀ now err,
       ∃ j', store_after (mark_failed now id err) (run_ops history) !! id = Some j'
             ∧ status j' = Failed
             ∧ retry_count j' = retry_count j
             ∧ max_retries j' = max_retries j)
  ∧ (status j = Failed →
     retry_count j = max_retries j
     ∧ ∀ now op j',
         worker_driven op ∨ (∃ id0 err, op = MarkFailed id0 err) →
         run_op now op (run_ops history) !! id = Some j' →
         status j' = Failed ∧ retry_count j' = retry_count j).
Proof.
  intros Hj. destruct (run_ops_budget _ _ _ Hj) as [Hle Hfull].
  assert (Hlast : retry_count j = max_retries j →
            ∀ now err,
              ∃ j', store_after (mark_failed now id err) (run_ops history) !! id
                    = Some j'
                    ∧ status j' = Failed
                    ∧ retry_count j' = retry_count j
                    ∧ max_retries j' = max_retries j).
  { intros Heq now err. unfold store_after. rewrite mark_failed_run, Hj. simpl.
    replace (retry_count j <? max_retries j) with false by lia.
    rewrite lookup_alter_eq, Hj. by eexists. }
  split; [done|]. split; [done|].
  intros Hfailed. split; [by apply Hfull|].
  intros now op j' [Hop|(id0 & err & ->)] Hj'.
  - assert (j' = j) as -> by (eapply run_op_terminal; eauto). done.
  - simpl in Hj'. destruct (decide (id = id0)) as [<-|Hne].
    + destruct (Hlast (Hfull Hfailed) now err) as (j1 & Hj1 & Hs & Hr & _).
      rewrite Hj1 in Hj'. by injection Hj' as <-.
    + rewrite mark_failed_other, Hj in Hj' by done. by injection Hj' as <-.
Qed.

Lemma retry_budget_spec_witness :
  ∃ j', store_after (mark_failed 30 "job" "boom") (run_ops retried_twice) !! "job"
        = Some j'
        ∧ status j' = Failed ∧ retry_count j' = 2 ∧ max_retries j' = 2.
Proof.
  assert (Hj : run_ops retried_twice !! "job"
               = Some (mkJob "nb" "doc" "text" Queued 0 2 2 0 (Some 20) None None
                             (Some "Retry 2/2: boom") 1)) by reflexivity.
  destruct (retry_budget_spec retried_twice "job" _ Hj) as (_ & Hlast & _).
  apply (Hlast eq_refl 30 "boom").
Defined.

(** C3, as the claim states it, fails.  After its second failure the job
    below has [retry_count = max_retries = 2] and is [queued], for its last
    attempt. *)
Lemma retry_budget_spent_yet_queued :
  retry_count <$> (run_ops retried_twice !! "job") = Some 2
  ∧ max_retries <$> (run_ops retried_twice !! "job") = Some 2
  ∧ status <$> (run_ops retried_twice !! "job") = Some Queued.
Proof. repeat split; reflexivity. Qed.

(** C8, as the code has it.  [created_at] is written by [enqueue] and by no
    later call.  Every [mark_processing] writes the current instant to
    [started_at], every [mark_completed] to [completed_at], and the
    [mark_failed] that ends the job to [failed_at], whether or not the
    column was set before; each leaves the other three timestamps as they
    were.  [recover_stuck_jobs] and a requeueing [mark_failed] write no
    timestamp. *)
Theorem timestamps_spec now id (db : DB) (j : Job) :
  db !! id = Some j →
  timestamps <$> (store_after (mark_processing now id) db !! id)
    = Some (created_at j, Some now, completed_at j, failed_at j)
  ∧ timestamps <$> (store_after (mark_completed now id) db !! id)
    = Some (created_at j, started_at j, Some now, failed_at j)
  ∧ (∀ err,
       timestamps <$> (store_after (mark_failed now id err) db !! id)
       = Some (created_at j, started_at j, completed_at j,
               if retry_count j <? max_retries j then failed_at j else Some now))
  ∧ (∀ timeout,
       timestamps <$> (store_after (recover_stuck_jobs now timeout) db !! id)
       = Some (timestamps j))
  ∧ (∀ op j', run_op now op db !! id = Some j' → created_at j' = created_at j).
Proof.
  intros Hj. split; [|split; [|split; [|split]]].
  - unfold store_after. rewrite mark_processing_run. simpl.
    by rewrite lookup_alter_eq, Hj.
  - unfold store_after. rewrite mark_completed_run. simpl.
    by rewrite lookup_alter_eq, Hj.
  - intros err. unfold store_after. rewrite mark_failed_run, Hj. simpl.
    destruct (retry_count j <? max_retries j); by rewrite lookup_alter_eq, Hj.
  - intros timeout. unfold store_after. rewrite recover_stuck_jobs_run.
    destruct timeout as [t|]; [destruct (int64 t)|]; simpl;
      [|by rewrite Hj|]; rewrite lookup_update_where, Hj; simpl.
    + by destruct (is_stuck now t j).
    + by destruct (is_processing j).
  - intros op j' Hj'. apply run_op_row in Hj' as [[Hnone _]|(j0 & Hj0 & Hsteps)].
    + congruence.
    + rewrite Hj in Hj0. injection Hj0 as <-. by apply row_step_created_at.
Qed.

Lemma timestamps_spec_witness :
  timestamps <$> (store_after (mark_processing 200 "job") sample_db !! "job")
  = Some (100, Some 200, None, None).
Proof.
  assert (H : sample_db !! "job" = Some sample_job) by reflexivity.
  exact (proj1 (timestamps_spec 200 "job" sample_db sample_job H)).
Defined.

(** C8, as the claim states it, fails.  The job below was started at
    instant 10 and requeued after a failure; starting it again at instant 20
    replaces its [started_at]. *)
Lemma retried_job_started_at_restamped :
  started_at <$> (run_ops retried_once !! "job") = Some (Some 10)
  ∧ started_at <$>
      (store_after (mark_processing 20 "job") (run_ops retried_once) !! "job")
    = Some (Some 20).
Proof. split; reflexivity. Qed.
End histories.

Section fifo.
Import Queue History Samples.

(** C4.  [get_next_job] leaves the store as it is.  It returns [None]
    exactly when no row is [queued]; otherwise the dict it returns is
    that of a row of the store whose status is [queued], and no [queued]
    row has a higher priority, nor the same priority and an earlier
    [created_at], nor the same priority, the same [created_at] and a
    smaller rowid.  The rowid is the order of insertion: a successful
    [enqueue] gives the new row a rowid above that of every row in the
    table, no call changes the rowid of a row, and in a table made by calls
    of the queue no two rows share a rowid.  So among the [queued] rows of
    the highest priority the one returned is the oldest, and of those
    created in the same second the one enqueued first. *)
Theorem get_next_job_spec (db : DB) :
  (∃ r, get_next_job db = (Ok r, db)
    ∧ (r = None ↔ ∀ id j, db !! id = Some j → status j ≠ Queued)
    ∧ match r with
      | None => True
      | Some d =>
          ∃ j, db !! job_id d = Some j ∧ status j = Queued
            ∧ d = mkJobDict (job_id d) (notebook_id j) (document_id j)
                    (content j) (retry_count j) (max_retries j)
            ∧ ∀ id' j', db !! id' = Some j' → status j' = Queued →
                priority j' ≤ priority j
                ∧ (priority j' = priority j → created_at j ≤ created_at j')
                ∧ (priority j' = priority j → created_at j' = created_at j →
                   rowid j ≤ rowid j')
      end)
  ∧ (∀ now uuid notebook document text prio,
       value_of (enqueue now uuid notebook document text prio) db = Ok uuid →
       ∃ new,
         store_after (enqueue now uuid notebook document text prio) db !! uuid
         = Some new
         ∧ ∀ id j, db !! id = Some j → rowid j < rowid new)
  ∧ (∀ now op id j j',
       db !! id = Some j → run_op now op db !! id = Some j' →
       rowid j' = rowid j)
  ∧ (∀ history, db = run_ops history →
       ∀ id j id' j', db !! id = Some j → db !! id' = Some j' →
         rowid j = rowid j' → id = id').
Proof.
  split; [|split; [|split]].
  - unfold get_next_job, select. eexists. split; [reflexivity|].
    pose proof (first_queued_row db) as Hrow.
    destruct (first_row sorts_before (queued_rows db)) as [[id j]|]; simpl in *.
    + destruct Hrow as (Hj & Hq & Hmax). split.
      { split; [done|]. intros Hnone. by destruct (Hnone id j Hj). }
      by exists j.
    + done.
  - intros now uuid notebook document text prio.
    unfold value_of, store_after. rewrite enqueue_run.
    destruct (int64 prio); [|done]. destruct (db !! uuid); [done|]. simpl.
    intros _. eexists. split; [apply lookup_insert_eq|].
    intros id j Hj. simpl. by eapply next_rowid_above.
  - intros now op id j j'. apply run_op_rowid.
  - intros history -> id j id' j'. apply run_ops_rowid.
Qed.
End fifo.

Section reconcile.
Import Queue History Reconcile Samples.

Lemma newer_irrefl a : newer a a = false.
Proof. unfold newer. lia. Qed.

Lemma newer_trans a b c :
  newer a b = true → newer b c = true → newer a c = true.
Proof. unfold newer. lia. Qed.

Lemma newer_neg_trans a b c :
  newer a b = false → newer b c = false → newer a c = false.
Proof. unfold newer. lia. Qed.

(** [latest_job] finds a row of the document with the greatest
    [created_at], among those the one inserted last, and finds none only
    when the document has no row. *)
Lemma latest_job_spec (db : DB) doc_id :
  match latest_job db doc_id with
  | Some job =>
      (∃ id, db !! id = Some job) ∧ document_id job = doc_id
      ∧ ∀ id' j', db !! id' = Some j' → document_id j' = doc_id →
          created_at j' ≤ created_at job
          ∧ (created_at j' = created_at job → rowid j' ≤ rowid job)
  | None => ∀ id j, db !! id = Some j → document_id j ≠ doc_id
  end.
Proof.
  unfold latest_job.
  set (docs := filter (λ kv : string * Job, document_id kv.2 = doc_id)
                      (table_rows db)).
  assert (Hrows : ∀ id j, (id, j) ∈ reverse docs
                          ↔ db !! id = Some j ∧ document_id j = doc_id).
  { intros id j. subst docs.
    rewrite elem_of_reverse, list_elem_of_filter, elem_of_table_rows. simpl.
    by rewrite (comm (∧)). }
  assert (Hsorted : StronglySorted by_rowid docs)
    by apply StronglySorted_filter_rows, table_rows_sorted.
  destruct (first_row newer (reverse docs)) as [[id j]|] eqn:Hfirst; simpl.
  - destruct (first_row_Some newer newer_irrefl newer_trans newer_neg_trans
                _ _ Hfirst) as [Hin Hmin].
    apply Hrows in Hin as [Hj Hdoc]. split; [by exists id|]. split; [done|].
    intros id' j' Hj' Hdoc'.
    assert (Hin' : (id', j') ∈ reverse docs) by (by apply Hrows).
    assert (Hb : newer j' j = false) by (by apply (Hmin (id', j'))).
    unfold newer in Hb. split; [lia|]. intros Hc.
    destruct (first_row_tie newer newer_irrefl newer_trans newer_neg_trans
                _ _ Hfirst) as (l1 & l2 & Hsplit & Hl1 & _).
    assert (Hdocs : docs = reverse l2 ++ (id, j) :: reverse l1).
    { rewrite <- (reverse_involutive docs), Hsplit, reverse_app, reverse_cons.
      by rewrite <- app_assoc. }
    rewrite Hsplit in Hin'. apply elem_of_app in Hin' as [Hin'|Hin'].
    + specialize (Hl1 _ Hin'). simpl in Hl1. unfold newer in Hl1. lia.
    + apply elem_of_cons in Hin' as [Heq|Hin']; [injection Heq as _ ->; lia|].
      rewrite Hdocs in Hsorted.
      apply (StronglySorted_app_1_elem_of _ _ _ (id', j') (id, j)) in Hsorted;
        [exact Hsorted|by apply elem_of_reverse|left].
  - apply (first_row_None newer newer_irrefl newer_trans newer_neg_trans)
      in Hfirst.
    intros id j Hj Hdoc.
    assert (Hin : (id, j) ∈ reverse docs) by (by apply Hrows).
    rewrite Hfirst in Hin. by apply elem_of_nil in Hin.
Qed.

Lemma repair_doc_lookup (db : DB) clock (st : Ledger * nat) entry k :
  (repair_doc db clock st entry).1 !! k
  = if decide (k = entry.1) then repaired db clock k <$> st.1 !! k
    else st.1 !! k.
Proof.
  unfold repair_doc, repaired. case_decide as Hk.
  - subst k. destruct (latest_job db entry.1) as [job|]; simpl.
    + destruct (status job); simpl; rewrite ?lookup_alter_eq; try done;
        by destruct (st.1 !! entry.1).
    + by rewrite lookup_alter_eq.
  - destruct (latest_job db entry.1) as [job|]; simpl.
    + destruct (status job); simpl; by rewrite ?lookup_alter_ne.
    + by rewrite lookup_alter_ne.
Qed.

Lemma repair_doc_count (db : DB) clock (st : Ledger * nat) entry :
  repair_doc db clock st entry = st
  ∨ (repair_doc db clock st entry).2 = S st.2.
Proof.
  unfold repair_doc. destruct (latest_job db entry.1) as [job|]; [|by right].
  destruct (status job); auto.
Qed.

Lemma foldl_repair_lookup (db : DB) clock l (st : Ledger * nat) k :
  NoDup l.*1 →
  (foldl (repair_doc db clock) st l).1 !! k
  = if decide (k ∈ l.*1) then repaired db clock k <$> st.1 !! k else st.1 !! k.
Proof.
  revert st. induction l as [|entry l IH]; intros st Hnd.
  - rewrite decide_False; [done|]. rewrite fmap_nil. apply not_elem_of_nil.
  - rewrite fmap_cons in *. apply NoDup_cons in Hnd as [Hnotin Hnd].
    cbn [foldl]. rewrite IH by done. rewrite repair_doc_lookup.
    destruct (decide (k = entry.1)) as [->|Hne].
    + rewrite (decide_False (P := entry.1 ∈ l.*1)) by done.
      rewrite decide_True by left. done.
    + destruct (decide (k ∈ l.*1)) as [Hin|Hnin].
      * rewrite decide_True by (by right). done.
      * rewrite decide_False; [done|]. by intros [?|?]%elem_of_cons.
Qed.

Lemma foldl_repair_count (db : DB) clock l (st : Ledger * nat) :
  (st.2 ≤ (foldl (repair_doc db clock) st l).2)%nat
  ∧ ((foldl (repair_doc db clock) st l).2 = st.2 →
     foldl (repair_doc db clock) st l = st).
Proof.
  revert st. induction l as [|entry l IH]; intros st; simpl; [done|].
  destruct (IH (repair_doc db clock st entry)) as [Hle Heq].
  destruct (repair_doc_count db clock st entry) as [Hsame|Hgrow].
  - rewrite Hsame in *. done.
  - split; [lia|]. intros Hback. lia.
Qed.

(** The ledger written by the repair pass, entry by entry. *)
Lemma cleanup_lookup clock (all_docs : Ledger) (db : DB) :
  ∃ out, cleanup_stuck_documents clock (Some all_docs) (Some db) = Some out
    ∧ ∀ k, out !! k
           = (λ d, if is_stuck_doc d then repaired db clock k d else d)
               <$> all_docs !! k.
Proof.
  unfold cleanup_stuck_documents.
  set (stuck_docs := filter (λ entry : string * DocData, is_stuck_doc entry.2 = true)
                            (map_to_list all_docs)).
  assert (Hstuck : ∀ k d, (k, d) ∈ stuck_docs
                          ↔ is_stuck_doc d = true ∧ all_docs !! k = Some d).
  { intros k d. subst stuck_docs.
    by rewrite list_elem_of_filter, elem_of_map_to_list. }
  assert (Hnd : NoDup stuck_docs.*1).
  { eapply sublist_NoDup; [apply (NoDup_fst_map_to_list all_docs)|].
    subst stuck_docs. apply fmap_sublist, sublist_filter. }
  assert (Hfold : ∀ k, (foldl (repair_doc db clock) (all_docs, 0%nat) stuck_docs).1 !! k
                       = (λ d, if is_stuck_doc d then repaired db clock k d else d)
                           <$> all_docs !! k).
  { intros k. rewrite foldl_repair_lookup by done. simpl.
    destruct (all_docs !! k) as [d|] eqn:Hk; simpl.
    - destruct (is_stuck_doc d) eqn:Hd.
      + rewrite decide_True; [done|]. apply list_elem_of_fmap.
        exists (k, d). split; [done|]. by apply Hstuck.
      + rewrite decide_False; [done|]. intros Hin.
        apply list_elem_of_fmap in Hin as ([k' d'] & -> & Hin).
        apply Hstuck in Hin as [Hd' Hk']. simpl in *. congruence.
    - by case_decide. }
  destruct (foldl_repair_count db clock stuck_docs (all_docs, 0%nat))
    as [_ Hzero].
  destruct stuck_docs as [|entry rest] eqn:Hlist.
  - exists all_docs. split; [done|]. intros k. rewrite <- Hfold. done.
  - destruct (foldl (repair_doc db clock) (all_docs, 0%nat) (entry :: rest))
      as [fixed_docs fixed_count] eqn:Hrun.
    destruct fixed_count as [|n]; simpl.
    + exists all_docs. split; [done|]. intros k. rewrite <- Hfold.
      by rewrite Hzero.
    + exists fixed_docs. split; [done|]. intros k. by rewrite <- Hfold.
Qed.

Lemma is_stuck_doc_processing (d : DocData) :
  d !! "status" = Some (JStr "processing") → is_stuck_doc d = true.
Proof. intros Hd. unfold is_stuck_doc. by rewrite Hd. Qed.

Lemma mark_doc_failed_status err at_time (d : DocData) :
  mark_doc_failed err at_time d !! "status" = Some (JStr "failed")
  ∧ mark_doc_failed err at_time d !! "error" = Some (JStr err)
  ∧ mark_doc_failed err at_time d !! "failed_at" = Some (JStr at_time).
Proof.
  unfold mark_doc_failed. repeat split.
  - rewrite !lookup_insert_ne by done. apply lookup_insert_eq.
  - rewrite lookup_insert_ne by done. apply lookup_insert_eq.
  - apply lookup_insert_eq.
Qed.

(** C9.  With the queue database in place, the repair pass handles a ledger
    entry whose status is ["processing"] as follows.  The job looked at is
    the most recently created job of the document, the one inserted last
    among those created in the same second; one is found whenever the
    document has a job.  If that job is [completed], if it is [failed], or
    if the document has no job at all, the entry gets status ["failed"], an
    error text and a [failed_at] stamp, and every other field of the entry
    stays.  For a [failed] job the error text is the text in the job's
    [error] column, and ["Unknown error"] when that column is [NULL] or
    empty.  In the remaining case, a job still [queued] or [processing],
    the entry is left as it is.  So the entry ends with status ["failed"] or
    ["processing"], never a success state. *)
Theorem cleanup_stuck_documents_spec clock (all_docs : Ledger) (db : DB)
    doc_id (d : DocData) :
  all_docs !! doc_id = Some d →
  d !! "status" = Some (JStr "processing") →
  ∃ out,
    cleanup_stuck_documents clock (Some all_docs) (Some db) = Some out
    ∧ (∀ job, latest_job db doc_id = Some job → status job = Completed →
         out !! doc_id =
           Some (<["failed_at" := JStr (clock doc_id)]>
                   (<["error" := JStr "Processing completed but document status wasn't updated (possible silent error). Please retry."]>
                      (<["status" := JStr "failed"]> d))))
    ∧ (∀ job e, latest_job db doc_id = Some job → status job = Failed →
         error job = Some e → e ≠ "" →
         out !! doc_id =
           Some (<["failed_at" := JStr (clock doc_id)]>
                   (<["error" := JStr e]>
                      (<["status" := JStr "failed"]> d))))
    ∧ (∀ job, latest_job db doc_id = Some job → status job = Failed →
         error job = None ∨ error job = Some "" →
         out !! doc_id =
           Some (<["failed_at" := JStr (clock doc_id)]>
                   (<["error" := JStr "Unknown error"]>
                      (<["status" := JStr "failed"]> d))))
    ∧ ((∀ id j, db !! id = Some j → document_id j ≠ doc_id) →
         out !! doc_id =
           Some (<["failed_at" := JStr (clock doc_id)]>
                   (<["error" := JStr "No queue job found - server may have crashed during upload"]>
                      (<["status" := JStr "failed"]> d))))
    ∧ (∀ job, latest_job db doc_id = Some job →
         status job = Queued ∨ status job = Processing →
         out !! doc_id = Some d)
    ∧ (∃ d', out !! doc_id = Some d'
             ∧ (d' !! "status" = Some (JStr "failed")
                ∨ d' !! "status" = Some (JStr "processing")))
    ∧ (latest_job db doc_id = None
       ↔ ∀ id j, db !! id = Some j → document_id j ≠ doc_id)
    ∧ (∀ job, latest_job db doc_id = Some job →
         (∃ id, db !! id = Some job) ∧ document_id job = doc_id
         ∧ ∀ id' j', db !! id' = Some j' → document_id j' = doc_id →
             created_at j' ≤ created_at job
             ∧ (created_at j' = created_at job → rowid j' ≤ rowid job)).
Proof.
  intros Hd Hstatus.
  destruct (cleanup_lookup clock all_docs db) as (out & Hout & Hlookup).
  exists out. split; [done|].
  assert (Hmine : out !! doc_id = Some (repaired db clock doc_id d)).
  { by rewrite Hlookup, Hd; simpl; rewrite is_stuck_doc_processing. }
  pose proof (latest_job_spec db doc_id) as Hlatest.
  rewrite Hmine. unfold repaired.
  split; [|split; [|split; [|split; [|split; [|split; [|split]]]]]].
  - by intros job -> ->.
  - intros job e -> -> He Hne. unfold or_default. rewrite He.
    by rewrite bool_decide_eq_false_2.
  - intros job -> -> [He|He]; by rewrite He.
  - intros Hnone. destruct (latest_job db doc_id) as [job|]; [|done].
    destruct Hlatest as ((id & Hjob) & Hdoc & _). by destruct (Hnone id job).
  - by intros job -> [-> | ->].
  - eexists. split; [done|].
    destruct (latest_job db doc_id) as [job|];
      [destruct (status job)|]; try (by right);
      left; apply mark_doc_failed_status.
  - destruct (latest_job db doc_id) as [job|]; [|done].
    destruct Hlatest as ((id & Hjob) & Hdoc & _).
    split; [done|]. intros Hnone. by destruct (Hnone id job).
  - intros job Hjob. by rewrite Hjob in Hlatest.
Qed.

(** The job of [failed_history] failed for good with the text ["boom"];
    the ledger entry of its document receives the job's error text. *)
Lemma cleanup_stuck_documents_spec_witness :
  ∃ out,
    cleanup_stuck_documents startup_clock (Some stale_ledger)
      (Some (run_ops failed_history)) = Some out
    ∧ out !! "doc" =
        Some (<["failed_at" := JStr "2025-01-01T00:00:00"]>
                (<["error" := JStr "Failed after 2 retries: boom"]>
                   (<["status" := JStr "failed"]>
                      {[ "status" := JStr "processing" ]}))).
Proof.
  assert (Hd : stale_ledger !! "doc" = Some {[ "status" := JStr "processing" ]})
    by reflexivity.
  assert (Hs : ({[ "status" := JStr "processing" ]} : DocData) !! "status"
               = Some (JStr "processing")) by reflexivity.
  destruct (cleanup_stuck_documents_spec startup_clock stale_ledger
              (run_ops failed_history) "doc" _ Hd Hs)
    as (out & Hout & _ & Hfailed & _).
  exists out. split; [exact Hout|].
  apply (Hfailed (mkJob "nb" "doc" "text" Failed 0 2 2 0 None None (Some 3)
                        (Some "Failed after 2 retries: boom") 1));
    [reflexivity|reflexivity|reflexivity|discriminate].
Defined.

(** Of two jobs of one document created in the same second, the one
    enqueued last is the one looked at. *)
Example latest_job_same_second :
  (status <$> latest_job (run_ops same_second_jobs) "doc") = Some Queued
  ∧ (content <$> latest_job (run_ops same_second_jobs) "doc") = Some "second".
Proof. split; reflexivity. Qed.

Example cleanup_no_queue_database :
  cleanup_stuck_documents startup_clock (Some stale_ledger) None
  = Some stale_ledger.
Proof. reflexivity. Qed.
End reconcile.

(** * Further properties of the queue *)

Section enqueue_facts.
Import Queue History Reads Samples.

(** X1.  [enqueue] with a fresh id and a priority that fits a 64-bit
    integer returns that id and adds one row: the notebook, document,
    content and priority as given, status [queued], [retry_count 0],
    [max_retries 2], [created_at] the current instant, no other timestamp
    and no error, and the next rowid of the table.  [get_job_status] on the
    id then returns that row, and every other id reads as before.  With a
    priority outside the 64-bit range the call raises [OverflowError] and
    inserts nothing. *)
Theorem enqueue_round_trip now uuid notebook document text prio (db : DB) :
  db !! uuid = None →
  let db' := store_after (enqueue now uuid notebook document text prio) db in
  (int64 prio = true →
     value_of (enqueue now uuid notebook document text prio) db = Ok uuid
     ∧ value_of (get_job_status uuid) db'
       = Ok (Some (uuid,
                   {| notebook_id := notebook; document_id := document;
                      content := text; status := Queued; priority := prio;
                      retry_count := 0; max_retries := 2; created_at := now;
                      started_at := None; completed_at := None;
                      failed_at := None; error := None;
                      rowid := next_rowid db |}))
     ∧ (∀ id, id ≠ uuid →
          value_of (get_job_status id) db' = value_of (get_job_status id) db)
     ∧ size db' = S (size db))
  ∧ (int64 prio = false →
       value_of (enqueue now uuid notebook document text prio) db
       = Raise overflow_error
       ∧ db' = db).
Proof.
  intros Hfresh db'. subst db'. unfold value_of, store_after.
  rewrite enqueue_run, Hfresh. split; intros Hrange; rewrite Hrange; simpl.
  - split; [done|]. split; [|split].
    + by rewrite lookup_insert_eq.
    + intros id Hne. by rewrite lookup_insert_ne.
    + by apply map_size_insert_None.
  - done.
Qed.

Lemma enqueue_round_trip_witness :
  value_of (get_job_status "new")
    (store_after (enqueue 7 "new" "nb" "doc" "text" 3) sample_db)
  = Ok (Some ("new",
              mkJob "nb" "doc" "text" Queued 3 0 2 7 None None None None 2)).
Proof.
  assert (H : sample_db !! "new" = None) by reflexivity.
  exact (proj1 (proj2 (proj1 (enqueue_round_trip 7 "new" "nb" "doc" "text" 3
                                sample_db H) eq_refl))).
Defined.

(** X2.  After a successful [enqueue] the queue is not empty for the
    worker: [get_next_job] returns a job.  It returns the new job when no
    other row is [queued], and whenever the new job's priority is above that
    of every [queued] row.  An [enqueue] with a fresh id succeeds when the
    priority fits a 64-bit integer; otherwise it raises [OverflowError] and
    the table is as before. *)
Theorem enqueue_then_get_next_job now uuid notebook document text prio (db : DB) :
  db !! uuid = None →
  let db' := store_after (enqueue now uuid notebook document text prio) db in
  (int64 prio = true →
     value_of (enqueue now uuid notebook document text prio) db = Ok uuid
     ∧ ∃ d, value_of get_next_job db' = Ok (Some d)
         ∧ ((∀ id j, db !! id = Some j → status j = Queued → priority j < prio) →
            d = mkJobDict uuid notebook document text 0 2))
  ∧ (int64 prio = false →
       value_of (enqueue now uuid notebook document text prio) db
       = Raise overflow_error
       ∧ db' = db).
Proof.
  intros Hfresh db'. split; intros Hrange.
  2:{ subst db'. unfold value_of, store_after.
      by rewrite enqueue_run, Hrange. }
  split; [unfold value_of; by rewrite enqueue_run, Hrange, Hfresh|].
  set (new := new_job (next_rowid db) now notebook document text prio).
  assert (Hdb' : db' = <[uuid := new]> db).
  { subst db'. unfold store_after. by rewrite enqueue_run, Hrange, Hfresh. }
  assert (Hnew : db' !! uuid = Some new) by (by rewrite Hdb', lookup_insert_eq).
  pose proof (first_queued_row db') as Hrow.
  unfold value_of, get_next_job, select. simpl.
  destruct (first_row sorts_before (queued_rows db')) as [[id j]|]; simpl in *.
  - eexists. split; [done|]. intros Hlow.
    destruct Hrow as (Hj & Hq & Hmax).
    destruct (decide (id = uuid)) as [->|Hne].
    + rewrite Hnew in Hj. by injection Hj as <-.
    + destruct (Hmax uuid _ Hnew eq_refl) as [Hle _]. simpl in Hle.
      rewrite Hdb', lookup_insert_ne in Hj by done.
      specialize (Hlow id j Hj Hq). lia.
  - by destruct (Hrow uuid _ Hnew).
Qed.

Lemma enqueue_then_get_next_job_witness :
  value_of get_next_job
    (store_after (enqueue 7 "new" "nb" "doc" "text" 3) sample_db)
  = Ok (Some (mkJobDict "new" "nb" "doc" "text" 0 2)).
Proof.
  assert (Hfresh : sample_db !! "new" = None) by reflexivity.
  destruct (proj1 (enqueue_then_get_next_job 7 "new" "nb" "doc" "text" 3
                     sample_db Hfresh) eq_refl)
    as (_ & d & Hd & Hnew).
  rewrite Hd, Hnew; [reflexivity|].
  intros id j Hj Hq. unfold sample_db in Hj.
  apply lookup_singleton_Some in Hj as [_ <-]. discriminate.
Defined.
End enqueue_facts.

Section history_facts.
Import Queue History Reads Samples.

Lemma row_steps_immutable j j' :
  rtc row_step j j' →
  notebook_id j' = notebook_id j ∧ document_id j' = document_id j
  ∧ content j' = content j ∧ priority j' = priority j
  ∧ max_retries j' = max_retries j ∧ created_at j' = created_at j.
Proof.
  induction 1 as [|j j1 j2 Hstep _ IH]; [done|].
  destruct IH as (-> & -> & -> & -> & -> & ->). by destruct Hstep.
Qed.

(** X3.  No call rewrites what was submitted: whatever the call, a row that
    is still in the store afterwards has the notebook, document, content,
    priority, [max_retries] and [created_at] it had before. *)
Theorem submitted_columns_immutable now op (db : DB) id (j j' : Job) :
  db !! id = Some j →
  run_op now op db !! id = Some j' →
  notebook_id j' = notebook_id j ∧ document_id j' = document_id j
  ∧ content j' = content j ∧ priority j' = priority j
  ∧ max_retries j' = max_retries j ∧ created_at j' = created_at j.
Proof.
  intros Hj Hj'. apply run_op_row in Hj' as [[Hnone _]|(j0 & Hj0 & Hsteps)];
    [congruence|].
  rewrite Hj in Hj0. injection Hj0 as <-. by apply row_steps_immutable.
Qed.

Lemma submitted_columns_immutable_witness :
  notebook_id (mkJob "nb" "doc" "text" Queued 0 1 2 0 (Some 30) None None
                     (Some "Retry 1/2: index write failed") 1) = "nb"
  ∧ run_op 30 (WorkerIteration silent_failure 40) one_queued !! "job"
    = Some (mkJob "nb" "doc" "text" Queued 0 1 2 0 (Some 30) None None
                  (Some "Retry 1/2: index write failed") 1).
Proof.
  assert (H : one_queued !! "job"
              = Some (mkJob "nb" "doc" "text" Queued 0 0 2 0 None None None None 1))
    by reflexivity.
  assert (H' : run_op 30 (WorkerIteration silent_failure 40) one_queued !! "job"
               = Some (mkJob "nb" "doc" "text" Queued 0 1 2 0 (Some 30) None None
                             (Some "Retry 1/2: index write failed") 1))
    by reflexivity.
  split; [|exact H'].
  exact (proj1 (submitted_columns_immutable 30 _ one_queued "job" _ _ H H')).
Defined.

Lemma run_op_keeps now op (db : DB) id j :
  db !! id = Some j →
  is_Some (run_op now op db !! id)
  ∨ ∃ days, op = ClearOldJobs days ∧ is_old now days j = true.
Proof.
  intros Hj.
  destruct op as [uuid nb doc text prio| |id0|id0|id0 err|timeout|days|cb t_end];
    simpl.
  - left. unfold store_after. rewrite enqueue_run.
    destruct (int64 prio); simpl; [|by rewrite Hj].
    destruct (db !! uuid) eqn:Hu; simpl; [by rewrite Hj|].
    rewrite lookup_insert_ne by congruence. by rewrite Hj.
  - left. unfold store_after. simpl. by rewrite Hj.
  - left. unfold store_after. simpl. rewrite lookup_alter.
    case_decide; subst; by rewrite Hj.
  - left. unfold store_after. simpl. rewrite lookup_alter.
    case_decide; subst; by rewrite Hj.
  - left. unfold store_after. rewrite mark_failed_run. simpl.
    destruct (db !! id0) as [row|]; [|by rewrite Hj].
    destruct (retry_count row <? max_retries row);
      rewrite lookup_alter; case_decide; subst; by rewrite Hj.
  - left. unfold store_after. rewrite recover_stuck_jobs_run.
    destruct timeout as [t|]; [destruct (int64 t)|]; simpl;
      [|by rewrite Hj|]; by rewrite lookup_update_where, Hj.
  - destruct (is_old now days j) eqn:Hold; [right; by eauto|].
    left. exists j. unfold store_after. rewrite clear_old_jobs_run.
    destruct (int64 days); simpl; [|done].
    by apply lookup_delete_where.
  - left. unfold store_after at 1. rewrite worker_iteration_run. simpl.
    destruct (first_row sorts_before (queued_rows db)) as [row|];
      [|by rewrite Hj].
    assert (Hp : is_Some (store_after (mark_processing now row.1) db !! id)).
    { unfold store_after. simpl. rewrite lookup_alter.
      case_decide; subst; by rewrite Hj. }
    destruct Hp as [j1 Hj1].
    destruct (outcome_of_cases cb t_end (row_dict row)) as [->|[msg ->]].
    + unfold store_after at 1. simpl. rewrite lookup_alter.
      case_decide; subst; by rewrite Hj1.
    + unfold store_after at 1. rewrite mark_failed_run. simpl.
      destruct (_ !! row.1) as [r|]; [|by rewrite Hj1].
      destruct (retry_count r <? max_retries r);
        rewrite lookup_alter; case_decide; subst; by rewrite Hj1.
Qed.

(** X4.  Rows appear and disappear in two ways only.  A row that is in the
    store before a call is still there afterwards, unless the call is
    [clear_old_jobs] and the row is [completed] or [failed]; and a row that
    is there afterwards was there before, unless the call is the [enqueue]
    that created it. *)
Theorem rows_come_and_go now op (db : DB) id :
  (∀ j, db !! id = Some j →
     is_Some (run_op now op db !! id)
     ∨ (∃ days, op = ClearOldJobs days)
       ∧ (status j = Completed ∨ status j = Failed))
  ∧ (∀ j', run_op now op db !! id = Some j' →
       is_Some (db !! id)
       ∨ ∃ notebook document text prio,
           op = Enqueue id notebook document text prio
           ∧ j' = new_job (next_rowid db) now notebook document text prio).
Proof.
  split.
  - intros j Hj. destruct (run_op_keeps now op db id j Hj) as [?|(days & -> & Hold)];
      [by left|right].
    split; [by eauto|]. unfold is_old, is_terminal in Hold.
    apply andb_true_iff in Hold as [Hterm _].
    apply orb_true_iff in Hterm as [H|H]; apply bool_decide_eq_true in H; auto.
  - intros j' Hj'.
    apply run_op_row in Hj' as [[_ Hnew]|(j & Hj & _)]; [by right|left; by eauto].
Qed.
End history_facts.

Section budget_facts.
Import Queue History Reads Samples.

Lemma row_step_shape j j' :
  row_step j j' →
  (max_retries j = 2 ∧ 0 ≤ retry_count j)
  ∧ (status j = Processing → started_at j ≠ None)
  ∧ (status j = Completed → completed_at j ≠ None ∧ error j = None)
  ∧ (status j = Failed → failed_at j ≠ None ∧ error j ≠ None) →
  (max_retries j' = 2 ∧ 0 ≤ retry_count j')
  ∧ (status j' = Processing → started_at j' ≠ None)
  ∧ (status j' = Completed → completed_at j' ≠ None ∧ error j' = None)
  ∧ (status j' = Failed → failed_at j' ≠ None ∧ error j' ≠ None).
Proof.
  destruct 1; simpl; intros ((Hm & Hr) & Hp & Hc & Hf);
    repeat split; try done; lia.
Qed.

Lemma run_ops_shape history id j :
  run_ops history !! id = Some j →
  (max_retries j = 2 ∧ 0 ≤ retry_count j)
  ∧ (status j = Processing → started_at j ≠ None)
  ∧ (status j = Completed → completed_at j ≠ None ∧ error j = None)
  ∧ (status j = Failed → failed_at j ≠ None ∧ error j ≠ None).
Proof.
  revert id j. induction history as [|[now op] history IH] using rev_ind;
    intros id j.
  - unfold run_ops. simpl. by rewrite lookup_empty.
  - rewrite run_ops_snoc. simpl. intros Hj.
    apply run_op_row in Hj
      as [[_ (nb & doc & text & prio & _ & ->)]|(j0 & Hj0 & Hsteps)].
    + simpl. repeat split; done.
    + apply IH in Hj0. clear -Hj0 Hsteps.
      induction Hsteps as [|j0 j1 j2 Hstep _ IHs]; [done|].
      apply IHs. by eapply row_step_shape.
Qed.

(** X5.  In the store left by any history of calls every job has
    [max_retries = 2] and [retry_count] 0, 1 or 2: no job is given more than
    two retries. *)
Theorem two_retries_at_most history id (j : Job) :
  run_ops history !! id = Some j →
  max_retries j = 2 ∧ 0 ≤ retry_count j ≤ 2.
Proof.
  intros Hj. destruct (run_ops_shape _ _ _ Hj) as ((Hm & Hr) & _).
  destruct (run_ops_budget _ _ _ Hj) as [Hle _]. lia.
Qed.

Lemma two_retries_at_most_witness :
  max_retries (mkJob "nb" "doc" "text" Queued 0 2 2 0 (Some 20) None None
                     (Some "Retry 2/2: boom") 1) = 2
  ∧ 0 ≤ retry_count (mkJob "nb" "doc" "text" Queued 0 2 2 0 (Some 20) None None
                           (Some "Retry 2/2: boom") 1) ≤ 2.
Proof. apply (two_retries_at_most retried_twice "job"). reflexivity. Defined.

(** X6.  In the store left by any history of calls the status of a row
    agrees with its other columns: a [processing] row has a [started_at], a
    [completed] row has a [completed_at] and no error, a [failed] row has a
    [failed_at] and an error text. *)
Theorem status_columns_agree history id (j : Job) :
  run_ops history !! id = Some j →
  (status j = Processing → ∃ t, started_at j = Some t)
  ∧ (status j = Completed → (∃ t, completed_at j = Some t) ∧ error j = None)
  ∧ (status j = Failed →
     (∃ t, failed_at j = Some t) ∧ ∃ msg, error j = Some msg).
Proof.
  intros Hj. destruct (run_ops_shape _ _ _ Hj) as (_ & Hp & Hc & Hf).
  split; [|split].
  - intros Hs. specialize (Hp Hs). destruct (started_at j); [by eauto|done].
  - intros Hs. destruct (Hc Hs) as [Hc1 Hc2]. split; [|done].
    destruct (completed_at j); [by eauto|done].
  - intros Hs. destruct (Hf Hs) as [Hf1 Hf2]. split.
    + destruct (failed_at j); [by eauto|done].
    + destruct (error j); [by eauto|done].
Qed.

Lemma status_columns_agree_witness :
  (∃ t, completed_at (mkJob "nb" "doc" "text" Completed 0 2 2 0 None
                            (Some 3456000) (Some 0) None 1) = Some t)
  ∧ error (mkJob "nb" "doc" "text" Completed 0 2 2 0 None (Some 3456000)
                 (Some 0) None 1) = None.
Proof.
  assert (H : run_ops failed_then_completed !! "job"
              = Some (mkJob "nb" "doc" "text" Completed 0 2 2 0 None
                            (Some 3456000) (Some 0) None 1)) by reflexivity.
  exact (proj1 (proj2 (status_columns_agree failed_then_completed "job" _ H))
           eq_refl).
Defined.

(** The store after a run of failures of the same job, each with its
    instant and its error text. *)
Lemma mark_failed_step now id err (db : DB) j :
  db !! id = Some j →
  store_after (mark_failed now id err) db !! id =
    Some (if retry_count j <? max_retries j
          then set_retry (retry_message (retry_count j) (max_retries j) err) j
          else set_failed now (failed_message (max_retries j) err) j).
Proof.
  intros Hj. unfold store_after. rewrite mark_failed_run, Hj. simpl.
  destruct (retry_count j <? max_retries j); by rewrite lookup_alter_eq, Hj.
Qed.

(** X7.  Failing a job again and again: while the number of failures stays
    within what is left of the budget, [max_retries - retry_count], each
    failure requeues the job and adds one to [retry_count]; the failure
    after that makes the job [failed], and every later one leaves it
    [failed] with [retry_count = max_retries]. *)
Theorem repeated_failures (failures : list (Z * string)) id (db : DB) (j : Job) :
  db !! id = Some j →
  retry_count j ≤ max_retries j →
  let db' := foldl (λ db f, store_after (mark_failed f.1 id f.2) db) db failures in
  ∃ j', db' !! id = Some j'
    ∧ max_retries j' = max_retries j
    ∧ (Z.of_nat (length failures) ≤ max_retries j - retry_count j →
       retry_count j' = retry_count j + Z.of_nat (length failures)
       ∧ (failures ≠ [] → status j' = Queued))
    ∧ (max_retries j - retry_count j < Z.of_nat (length failures) →
       retry_count j' = max_retries j ∧ status j' = Failed).
Proof.
  revert db j. induction failures as [|[now err] failures IH]; intros db j Hj Hle db'.
  - exists j. subst db'. simpl. split; [done|]. split; [done|]. split.
    + intros _. split; [lia|done].
    + lia.
  - subst db'. cbn [foldl fst snd].
    pose proof (mark_failed_step now id err db j Hj) as Hstep.
    destruct (retry_count j <? max_retries j) eqn:Hlt.
    + destruct (IH _ _ Hstep) as (j' & Hj' & Hmax & Hin & Hout);
        [simpl; lia|].
      exists j'. split; [done|]. simpl in *. split; [done|].
      rewrite Nat2Z.inj_succ. split.
      * intros Hn. destruct (Hin ltac:(lia)) as [Hr Hq]. split; [lia|].
        intros _. destruct failures as [|f failures]; [|by apply Hq].
        simpl in Hj'. rewrite Hstep in Hj'. by injection Hj' as <-.
      * intros Hn. apply Hout. lia.
    + destruct (IH _ _ Hstep) as (j' & Hj' & Hmax & Hin & Hout);
        [simpl; lia|].
      exists j'. split; [done|]. simpl in *. split; [done|].
      rewrite Nat2Z.inj_succ. split; [lia|]. intros _.
      destruct failures as [|f failures].
      * simpl in Hj'. rewrite Hstep in Hj'. injection Hj' as <-. simpl.
        split; [lia|done].
      * apply Hout. simpl length. lia.
Qed.

Lemma repeated_failures_witness :
  ∃ j', foldl (λ db f, store_after (mark_failed f.1 "job" f.2) db) one_queued
          [(1, "a"); (2, "b"); (3, "c")] !! "job" = Some j'
    ∧ retry_count j' = 2 ∧ status j' = Failed.
Proof.
  assert (H : one_queued !! "job"
              = Some (mkJob "nb" "doc" "text" Queued 0 0 2 0 None None None None 1))
    by reflexivity.
  destruct (repeated_failures [(1, "a"); (2, "b"); (3, "c")] "job" one_queued _ H)
    as (j' & Hj' & _ & _ & Hout); [simpl; lia|].
  exists j'. split; [exact Hj'|]. apply Hout. simpl. lia.
Defined.
End budget_facts.

Section worker_facts.
Import Queue History Reads Samples.

(** X8.  What one pass of the worker loop does to the table, whatever the
    callbacks do.  With no [queued] row the pass leaves the table as it is.
    Otherwise it changes the row that [get_next_job] returns and no other:
    that row was [queued], gets [started_at] set to the instant the pass
    began, and keeps its notebook, document, content, priority,
    [max_retries], [created_at] and rowid. *)
Theorem worker_iteration_frame cb t_start t_end (db : DB) :
  let db' := store_after (worker_iteration cb t_start t_end) db in
  match value_of get_next_job db with
  | Ok (Some job) =>
      (∀ id, id ≠ job_id job → db' !! id = db !! id)
      ∧ ∃ j j', db !! job_id job = Some j ∧ status j = Queued
                ∧ db' !! job_id job = Some j'
                ∧ started_at j' = Some t_start
                ∧ notebook_id j' = notebook_id j
                ∧ document_id j' = document_id j
                ∧ content j' = content j ∧ priority j' = priority j
                ∧ max_retries j' = max_retries j
                ∧ created_at j' = created_at j ∧ rowid j' = rowid j
  | _ => db' = db
  end.
Proof.
  intros db'. subst db'. unfold store_after. rewrite worker_iteration_run.
  unfold value_of, get_next_job, select. simpl.
  pose proof (first_queued_row db) as Hrow.
  destruct (first_row sorts_before (queued_rows db)) as [row|]; simpl; [|done].
  destruct Hrow as (Hj & Hq & _). split.
  - intros id Hne. by rewrite outcome_of_other, mark_processing_other.
  - assert (Hstarted : store_after (mark_processing t_start row.1) db !! row.1
                       = Some (set_processing t_start row.2)).
    { unfold store_after. simpl. by rewrite lookup_alter_eq, Hj. }
    exists row.2.
    destruct (outcome_of_cases cb t_end (row_dict row)) as [->|[msg ->]]; simpl.
    + unfold store_after at 1. simpl. rewrite lookup_alter_eq, Hstarted.
      by eexists.
    + rewrite (mark_failed_step _ _ _ _ _ Hstarted). simpl.
      destruct (retry_count row.2 <? max_retries row.2); by eexists.
Qed.

Lemma count_where_none P (db : DB) :
  (∀ id j, db !! id = Some j → P j = false) → count_where P db = 0%nat.
Proof.
  intros HP. unfold count_where. apply map_size_empty_iff, map_empty.
  intros id. apply map_lookup_filter_None. right. intros j Hj. simpl.
  by rewrite (HP id j Hj).
Qed.

Lemma update_where_none P f (db : DB) :
  (∀ id j, db !! id = Some j → P j = false) → update_where P f db = db.
Proof.
  intros HP. apply map_eq. intros id. rewrite lookup_update_where.
  destruct (db !! id) as [j|] eqn:Hj; [|done]. simpl. by rewrite (HP id j Hj).
Qed.

(** X9.  After [recover_stuck_jobs] without a timeout no row is
    [processing], and calling it again, at any instant, recovers nothing and
    changes nothing.  With a timeout, a second call at the same instant
    changes nothing; it returns 0 when the timeout fits a 64-bit integer
    and raises [OverflowError], as the first call did, when it does not. *)
Theorem recover_stuck_jobs_settles now timeout (db : DB) :
  let db' := store_after (recover_stuck_jobs now timeout) db in
  (timeout = None → ∀ id j, db' !! id = Some j → status j ≠ Processing)
  ∧ (timeout = None → ∀ now', recover_stuck_jobs now' None db' = (Ok 0%nat, db'))
  ∧ store_after (recover_stuck_jobs now timeout) db' = db'
  ∧ value_of (recover_stuck_jobs now timeout) db'
    = match timeout with
      | Some t => if int64 t then Ok 0%nat else Raise overflow_error
      | None => Ok 0%nat
      end.
Proof.
  intros db'.
  assert (Hnone : ∀ id j,
            store_after (recover_stuck_jobs now None) db !! id = Some j →
            is_processing j = false).
  { intros id j. unfold store_after. simpl. rewrite lookup_update_where.
    destruct (db !! id) as [j0|]; [|done]. simpl.
    destruct (is_processing j0) eqn:Hp; intros [= <-]; done. }
  split; [|split].
  - intros -> id j Hj. apply Hnone in Hj.
    unfold is_processing in Hj. by apply bool_decide_eq_false in Hj.
  - intros -> now'. rewrite recover_stuck_jobs_run.
    by rewrite count_where_none, update_where_none.
  - subst db'. unfold store_after at 1, value_of.
    rewrite (recover_stuck_jobs_run now timeout (store_after _ _)).
    destruct timeout as [t|]; [destruct (int64 t) eqn:Hrange|]; simpl.
    + assert (Hstuck : ∀ id j,
                store_after (recover_stuck_jobs now (Some t)) db !! id = Some j →
                is_stuck now t j = false).
      { intros id j. unfold store_after. rewrite recover_stuck_jobs_run, Hrange.
        simpl. rewrite lookup_update_where.
        destruct (db !! id) as [j0|]; [|done]. simpl.
        destruct (is_stuck now t j0) eqn:Hp; intros [= <-]; done. }
      by rewrite count_where_none, update_where_none.
    + done.
    + by rewrite count_where_none, update_where_none.
Qed.

(** X10.  [clear_old_jobs] called again at the same instant with the same
    age deletes nothing more: it leaves the table as the first call left
    it, and returns 0 when the age fits a 64-bit integer; when it does not,
    the call raises [OverflowError] as the first one did. *)
Theorem clear_old_jobs_settles now days (db : DB) :
  let db' := store_after (clear_old_jobs now days) db in
  store_after (clear_old_jobs now days) db' = db'
  ∧ value_of (clear_old_jobs now days) db'
    = if int64 days then Ok 0%nat else Raise overflow_error.
Proof.
  intros db'. unfold store_after at 1, value_of.
  rewrite (clear_old_jobs_run now days db').
  destruct (int64 days) eqn:Hrange; simpl; [|done].
  assert (Hkept : ∀ id j, db' !! id = Some j → is_old now days j = false).
  { intros id j. subst db'. unfold store_after.
    rewrite clear_old_jobs_run, Hrange. simpl.
    by intros [_ ?]%lookup_delete_where. }
  rewrite count_where_none by done. split; [|done].
  apply map_eq. intros id. apply option_eq. intros j.
  rewrite lookup_delete_where. split; [by intros [? _]|].
  intros Hj. split; [done|]. by eapply Hkept.
Qed.
End worker_facts.

Section read_facts.
Import Queue History Reads Samples.

Lemma count_where_insert P (db : DB) id j :
  count_where P (<[id := j]> db)
  = ((if P j then 1 else 0) + count_where P (delete id db))%nat.
Proof.
  unfold count_where. rewrite map_filter_insert. simpl.
  destruct (P j) eqn:HPj.
  - rewrite decide_True by done. rewrite map_filter_delete.
    rewrite <- insert_delete_eq.
    by rewrite map_size_insert_None by apply lookup_delete_eq.
  - rewrite decide_False by done. done.
Qed.

Lemma count_where_insert_fresh P (db : DB) id j :
  db !! id = None →
  count_where P (<[id := j]> db) = ((if P j then 1 else 0) + count_where P db)%nat.
Proof. intros Hnone. by rewrite count_where_insert, delete_id. Qed.

Lemma count_where_by_status scope (db : DB) :
  count_where scope db
  = (count_where (λ j, scope j && bool_decide (status j = Completed)) db
     + count_where (λ j, scope j && bool_decide (status j = Failed)) db
     + count_where (λ j, scope j && bool_decide (status j = Processing)) db
     + count_where (λ j, scope j && bool_decide (status j = Queued)) db)%nat.
Proof.
  induction db as [|id j db Hnone IH] using map_ind.
  - unfold count_where. by rewrite !map_filter_empty, !map_size_empty.
  - rewrite !count_where_insert_fresh by done. rewrite IH.
    destruct (scope j), (status j); simpl; lia.
Qed.

Lemma stats_of_counts (a b c d : nat) :
  let stats := filter (λ p : Status * nat, p.2 ≠ 0%nat)
                 [(Completed, a); (Failed, b); (Processing, c); (Queued, d)] in
  stats_get stats Completed = a ∧ stats_get stats Failed = b
  ∧ stats_get stats Processing = c ∧ stats_get stats Queued = d
  ∧ sum_list stats.*2 = (a + b + c + d)%nat.
Proof.
  destruct a as [|a], b as [|b], c as [|c], d as [|d]; simpl;
    repeat split; try reflexivity; lia.
Qed.

Lemma in_scope_true notebook j :
  in_scope notebook j = true
  ↔ match notebook with
    | Some nb => nb = "" ∨ notebook_id j = nb
    | None => True
    end.
Proof.
  unfold in_scope, truthy. destruct notebook as [nb|]; [|done].
  case_bool_decide as Hnb; simpl.
  - split; [by left|done].
  - rewrite bool_decide_eq_true. split; [intros [= ->]; by right|].
    intros [? | ->]; done.
Qed.

(** X11.  [get_queue_stats] leaves the store as it is and reports, for the
    rows in its scope, the number of rows in each status; a status that no
    row has is reported as 0; the four numbers add up to [total], and
    [total] is the number of rows in scope.  The scope is the rows of the
    given notebook; without a notebook, and also with the empty string as
    notebook, it is the whole table. *)
Theorem get_queue_stats_spec notebook (db : DB) :
  ∃ st, get_queue_stats notebook db = (Ok st, db)
    ∧ queued st
      = count_where (λ j, in_scope notebook j && bool_decide (status j = Queued)) db
    ∧ processing st
      = count_where (λ j, in_scope notebook j && bool_decide (status j = Processing)) db
    ∧ completed st
      = count_where (λ j, in_scope notebook j && bool_decide (status j = Completed)) db
    ∧ failed st
      = count_where (λ j, in_scope notebook j && bool_decide (status j = Failed)) db
    ∧ total st = (queued st + processing st + completed st + failed st)%nat
    ∧ total st = count_where (in_scope notebook) db
    ∧ (∀ j, in_scope notebook j = true
            ↔ match notebook with
              | Some nb => nb = "" ∨ notebook_id j = nb
              | None => True
              end)
    ∧ (match notebook with Some "" | None => total st = size db | _ => True end).
Proof.
  unfold get_queue_stats, select. eexists. split; [reflexivity|]. simpl.
  unfold status_counts. simpl fmap.
  destruct (stats_of_counts
              (count_where (λ j, in_scope notebook j && bool_decide (status j = Completed)) db)
              (count_where (λ j, in_scope notebook j && bool_decide (status j = Failed)) db)
              (count_where (λ j, in_scope notebook j && bool_decide (status j = Processing)) db)
              (count_where (λ j, in_scope notebook j && bool_decide (status j = Queued)) db))
    as (Hc & Hf & Hp & Hq & Hsum).
  cbv zeta in *. rewrite Hc, Hf, Hp, Hq, Hsum.
  assert (Htotal : ∀ scope, (∀ j, scope j = true) → count_where scope db = size db).
  { intros scope Hall. unfold count_where. f_equal. apply map_filter_id.
    intros id j _. apply Hall. }
  repeat split; try lia; try (by apply in_scope_true).
  - by rewrite (count_where_by_status (in_scope notebook)).
  - rewrite <- (count_where_by_status (in_scope notebook)).
    destruct notebook as [[|c nb]|]; try done; by apply Htotal.
Qed.
End read_facts.

Section listing_facts.
Import Queue History Reads Samples.

#[local] Instance newest_first_trans : Transitive newest_first.
Proof. intros a b c. unfold newest_first. lia. Qed.

#[local] Instance newest_first_total : Total newest_first.
Proof. intros a b. unfold newest_first. lia. Qed.

Lemma listed_true notebook status_arg j :
  listed notebook status_arg j = true
  ↔ notebook_id j = notebook
    ∧ match status_arg with
      | Some s => s = "" ∨ status_text (status j) = s
      | None => True
      end.
Proof.
  unfold listed, truthy. rewrite andb_true_iff, bool_decide_eq_true.
  destruct status_arg as [s|]; [|by split; intros [? _]].
  case_bool_decide as Hs; simpl.
  - split; intros [? _]; [split; [done|by left]|by split].
  - rewrite bool_decide_eq_true. split; intros [? H]; (split; [done|]).
    + injection H as <-. by right.
    + destruct H as [? | ->]; done.
Qed.

Lemma StronglySorted_weaken {A} (R R' : relation A) (l : list A) :
  (∀ a b, R a b → R' a b) → StronglySorted R l → StronglySorted R' l.
Proof.
  intros HR. induction 1 as [|a l _ IH Hall]; constructor; [done|].
  eapply Forall_impl; [exact Hall|]. intros b. apply HR.
Qed.

(** X12.  [get_jobs_by_notebook] leaves the store as it is and returns each
    row of the notebook once, newest first, and in the order of insertion
    among rows created in the same second.  With a status argument only the
    rows in that status are returned, so none for a text that is not a
    status; with the empty string as status argument the rows are not
    filtered by status. *)
Theorem get_jobs_by_notebook_spec notebook status_arg (db : DB) :
  ∃ rows, get_jobs_by_notebook notebook status_arg db = (Ok rows, db)
    ∧ (∀ id j, (id, j) ∈ rows
               ↔ db !! id = Some j ∧ notebook_id j = notebook
                 ∧ match status_arg with
                   | Some s => s = "" ∨ status_text (status j) = s
                   | None => True
                   end)
    ∧ NoDup rows.*1
    ∧ StronglySorted (λ a b : string * Job, created_at b.2 ≤ created_at a.2) rows
    ∧ StronglySorted
        (λ a b : string * Job,
           created_at b.2 = created_at a.2 → rowid a.2 ≤ rowid b.2) rows.
Proof.
  unfold get_jobs_by_notebook, select. eexists. split; [reflexivity|].
  set (found := map_to_list
                  (filter (λ kv : string * Job, listed notebook status_arg kv.2 = true) db)).
  pose proof (merge_sort_Permutation newest_first found) as Hperm.
  pose proof (StronglySorted_merge_sort newest_first found) as Hsorted.
  split; [|split; [|split]].
  - intros id j. rewrite Hperm. subst found.
    rewrite elem_of_map_to_list, map_lookup_filter_Some. simpl.
    by rewrite listed_true.
  - rewrite Hperm. apply NoDup_fst_map_to_list.
  - eapply StronglySorted_weaken; [|exact Hsorted].
    intros a b. unfold newest_first. lia.
  - eapply StronglySorted_weaken; [|exact Hsorted].
    intros a b. unfold newest_first. lia.
Qed.

End listing_facts.

Section control_facts.
Import Queue Control.

Lemma run_calls_snoc calls c : run_calls (calls ++ [c]) = run_call (run_calls calls) c.
Proof. unfold run_calls. by rewrite foldl_app. Qed.

Lemma run_calls_processor calls :
  (worker_running (run_calls calls) = true → is_Some (processor (run_calls calls)))
  ∧ (is_Some (processor (run_calls calls)) ↔ ∃ f, SetProcessor f ∈ calls).
Proof.
  induction calls as [|c calls [IHrun IHproc]] using rev_ind.
  - split; [done|]. split; [by intros [? ?]|].
    intros [f Hf]. by apply elem_of_nil in Hf.
  - rewrite run_calls_snoc.
    assert (Hin : ∀ f, SetProcessor f ∈ calls ++ [c]
                       ↔ SetProcessor f ∈ calls ∨ c = SetProcessor f).
    { intros f. rewrite elem_of_app, list_elem_of_singleton. naive_solver. }
    setoid_rewrite Hin. clear Hin.
    destruct (run_calls calls) as [run proc chk n]. simpl in *.
    destruct c as [f|f| |]; simpl.
    + split; [by eauto|]. split; by eauto.
    + split; [done|]. rewrite IHproc. naive_solver.
    + unfold start_worker. simpl.
      destruct run, proc as [p|]; simpl; (split; [by eauto|]);
        rewrite IHproc; naive_solver.
    + unfold stop_worker. simpl.
      destruct run; simpl; (split; [done|]); rewrite IHproc; naive_solver.
Qed.

(** X13.  Starting the worker after any sequence of calls on a new queue
    object.  If [set_processor] was called, [start_worker] succeeds and the
    worker runs; if it never was, [start_worker] raises, the worker does not
    run and the object is unchanged.  A worker that runs always has a
    processor, and a second [start_worker] in a row starts no second
    thread. *)
Theorem start_worker_spec (calls : list Call) :
  let w := run_calls calls in
  (worker_running w = true → is_Some (processor w))
  ∧ ((∃ f, SetProcessor f ∈ calls) →
     (start_worker w).1 = Ok tt ∧ worker_running (start_worker w).2 = true)
  ∧ ((∀ f, SetProcessor f ∉ calls) →
     start_worker w
     = (Raise "No processor function set. Call set_processor() first.", w)
     ∧ worker_running w = false)
  ∧ threads_started (start_worker (start_worker w).2).2
    = threads_started (start_worker w).2
  ∧ (threads_started (start_worker w).2 ≤ S (threads_started w))%nat.
Proof.
  intros w. destruct (run_calls_processor calls) as [Hrun Hproc]. fold w in Hrun, Hproc.
  split; [done|]. unfold start_worker.
  destruct (worker_running w) eqn:Hw; simpl.
  - rewrite Hw. simpl. split; [done|]. split; [|split; [done|lia]].
    intros Hnone. destruct (Hrun eq_refl) as [p Hp].
    assert (∃ f, SetProcessor f ∈ calls) as [f Hf] by (apply Hproc; by eauto).
    by destruct (Hnone f).
  - destruct (processor w) as [p|] eqn:Hp; simpl.
    + split; [done|]. split; [|split; [done|lia]].
      intros Hnone.
      assert (∃ f, SetProcessor f ∈ calls) as [f Hf] by (apply Hproc; by eauto).
      by destruct (Hnone f).
    + rewrite Hw, Hp. simpl. split; [|split; [done|split; [done|lia]]].
      intros Hsome. apply Hproc in Hsome as [? ?]. done.
Qed.
End control_facts.

Section ledger_facts.
Import Queue History Reconcile Samples.

Lemma is_stuck_doc_true (d : DocData) :
  is_stuck_doc d = true ↔ d !! "status" = Some (JStr "processing").
Proof.
  unfold is_stuck_doc. destruct (d !! "status") as [[s|raw]|]; try done.
  rewrite bool_decide_eq_true. split; congruence.
Qed.

Lemma repaired_cases (db : DB) clock k (d : DocData) :
  repaired db clock k d = d
  ∨ ∃ err, repaired db clock k d = mark_doc_failed err (clock k) d.
Proof.
  unfold repaired. destruct (latest_job db k) as [job|]; [|by eauto].
  destruct (status job); eauto.
Qed.

Lemma cleanup_without_queue clock (all_docs : Ledger) :
  cleanup_stuck_documents clock (Some all_docs) None = Some all_docs.
Proof.
  unfold cleanup_stuck_documents.
  by destruct (filter _ (map_to_list all_docs)).
Qed.

(** X14.  What the repair pass leaves alone.  It adds and removes no
    entry; an entry whose status is not ["processing"] is unchanged; in an
    entry it does change, every field other than [status], [error] and
    [failed_at] is unchanged; and when the queue database does not exist
    the whole ledger is unchanged. *)
Theorem cleanup_stuck_documents_frame clock (all_docs : Ledger) queue_db :
  ∃ out, cleanup_stuck_documents clock (Some all_docs) queue_db = Some out
    ∧ (∀ k, is_Some (out !! k) ↔ is_Some (all_docs !! k))
    ∧ (∀ k d, all_docs !! k = Some d →
         d !! "status" ≠ Some (JStr "processing") → out !! k = Some d)
    ∧ (∀ k d d' field, all_docs !! k = Some d → out !! k = Some d' →
         field ≠ "status" → field ≠ "error" → field ≠ "failed_at" →
         d' !! field = d !! field)
    ∧ (queue_db = None → out = all_docs).
Proof.
  destruct queue_db as [db|].
  - destruct (cleanup_lookup clock all_docs db) as (out & Hout & Hlookup).
    exists out. split; [done|]. split; [|split; [|split; [|done]]].
    + intros k. rewrite Hlookup. by rewrite fmap_is_Some.
    + intros k d Hd Hstatus. rewrite Hlookup, Hd. simpl.
      destruct (is_stuck_doc d) eqn:Hs; [|done].
      by apply is_stuck_doc_true in Hs.
    + intros k d d' field Hd. rewrite Hlookup, Hd. simpl. intros [= <-] H1 H2 H3.
      destruct (is_stuck_doc d); [|done].
      destruct (repaired_cases db clock k d) as [->|[err ->]]; [done|].
      unfold mark_doc_failed. by rewrite !lookup_insert_ne by done.
  - exists all_docs. split; [apply cleanup_without_queue|].
    split; [done|]. split; [by intros|]. split; [|done].
    intros k d d' field Hd Hd' _ _ _. congruence.
Qed.

(** X15.  Running the repair pass a second time against the same queue
    database changes nothing more, whatever the clock reads. *)
Theorem cleanup_stuck_documents_idempotent clock clock' (all_docs : Ledger) (db : DB) :
  ∃ out, cleanup_stuck_documents clock (Some all_docs) (Some db) = Some out
    ∧ cleanup_stuck_documents clock' (Some out) (Some db) = Some out.
Proof.
  destruct (cleanup_lookup clock all_docs db) as (out & Hout & Hlookup).
  exists out. split; [done|].
  destruct (cleanup_lookup clock' out db) as (out2 & Hout2 & Hlookup2).
  rewrite Hout2. f_equal. apply map_eq. intros k.
  rewrite Hlookup2, Hlookup. destruct (all_docs !! k) as [d|]; [|done]. simpl.
  f_equal. destruct (is_stuck_doc d) eqn:Hs; [|by rewrite Hs].
  unfold repaired. destruct (latest_job db k) as [job|] eqn:Hjob.
  - destruct (status job) eqn:Hst; rewrite ?Hs, ?Hst; try done;
      (destruct (is_stuck_doc (mark_doc_failed _ _ d)) eqn:Hs'; [|done]);
      apply is_stuck_doc_true in Hs';
      by rewrite (proj1 (mark_doc_failed_status _ _ d)) in Hs'.
  - destruct (is_stuck_doc (mark_doc_failed _ _ d)) eqn:Hs'; [|done].
    apply is_stuck_doc_true in Hs'.
    by rewrite (proj1 (mark_doc_failed_status _ _ d)) in Hs'.
Qed.
End ledger_facts.

Section verification_facts.
Import Queue History Reconcile Verification Samples.

Lemma worker_iteration_took cb t_start t_end (db : DB) job :
  value_of get_next_job db = Ok (Some job) →
  (∃ j, db !! job_id job = Some j ∧ status j = Queued)
  ∧ store_after (worker_iteration cb t_start t_end) db
    = store_after (outcome_of cb t_end job)
        (store_after (mark_processing t_start (job_id job)) db).
Proof.
  intros Hnext.
  assert (∃ row, first_row sorts_before (queued_rows db) = Some row
                 ∧ job = row_dict row) as (row & Hfirst & ->).
  { unfold value_of, get_next_job, select in Hnext. simpl in Hnext.
    destruct (first_row sorts_before (queued_rows db)) as [row|]; [|done].
    exists row. by simplify_eq/=. }
  pose proof (first_queued_row db) as Hrow. rewrite Hfirst in Hrow.
  destruct Hrow as (Hj & Hq & _). split; [by eauto|].
  unfold store_after at 1. by rewrite worker_iteration_run, Hfirst.
Qed.

Lemma check_document_status_completed (ledger : Ledger) doc s e :
  check_document_status ledger doc = (JStr s, e) →
  (s = "completed"
   ↔ ∃ d, ledger !! doc = Some d ∧ d !! "status" = Some (JStr "completed")).
Proof.
  unfold check_document_status. destruct (ledger !! doc) as [d|].
  - destruct (d !! "status") as [v|] eqn:Hv; simpl; intros Heq; simplify_eq.
    + split.
      * intros ->. by exists d.
      * intros (d' & Hd' & Hs). simplify_eq. done.
    + split; [done|]. intros (d' & Hd' & Hs). simplify_eq.
  - intros Heq. simplify_eq. split; [done|]. by intros (d' & ? & _).
Qed.

(** X16.  The worker together with the checker registered at startup.
    When the processor has returned normally and the checker reports what
    [check_document_status] reads from the documents database (status and
    error being strings), the job ends [completed] exactly when the database
    holds the document with status ["completed"].  When the document is not
    in the database at all, [mark_failed] is called with the text
    ["Document status is 'unknown' after processing - expected 'completed'
    or 'failed'"]. *)
Theorem worker_trusts_documents_db cb t_start t_end (db : DB) (job : JobDict)
    (ledger : Ledger) status_checker s e :
  value_of get_next_job db = Ok (Some job) →
  processor_func cb (d_notebook_id job) (d_document_id job) (d_content job)
    = Ok tt →
  status_checker_func cb = Some status_checker →
  check_document_status ledger (d_document_id job) = (JStr s, JStr e) →
  status_checker (d_document_id job) = Ok (s, Some e) →
  let started := store_after (mark_processing t_start (job_id job)) db in
  let final := store_after (worker_iteration cb t_start t_end) db in
  ((∃ j, final !! job_id job = Some j ∧ status j = Completed)
   ↔ ∃ d, ledger !! d_document_id job = Some d
          ∧ d !! "status" = Some (JStr "completed"))
  ∧ (ledger !! d_document_id job = None →
     final = store_after
               (mark_failed t_end (job_id job)
                  "Document status is 'unknown' after processing - expected 'completed' or 'failed'")
               started).
Proof.
  intros Hnext Hproc Hchk Hread Hsays started final.
  destruct (worker_iteration_took cb t_start t_end db job Hnext)
    as ((j & Hj & _) & Hfinal).
  fold final started in Hfinal.
  assert (Hstarted : started !! job_id job = Some (set_processing t_start j)).
  { subst started. unfold store_after. simpl. by rewrite lookup_alter_eq, Hj. }
  unfold outcome_of in Hfinal. rewrite Hproc, Hchk, Hsays in Hfinal.
  rewrite <- (check_document_status_completed ledger _ s (JStr e) Hread).
  split.
  - case_bool_decide as Hs.
    + split; [done|]. intros _. rewrite Hfinal.
      by apply (mark_completed_completed _ _ _ _ Hstarted).
    + split; [|done]. intros (j' & Hj' & Hc). rewrite Hfinal in Hj'.
      case_bool_decide;
        match type of Hj' with
        | store_after (mark_failed _ _ ?m) _ !! _ = _ =>
            destruct (mark_failed_not_completed t_end (job_id job) m _ _ Hstarted)
              as (j'' & Hj'' & Hn)
        end; congruence.
  - intros Hnone. unfold check_document_status in Hread. rewrite Hnone in Hread.
    injection Hread as <- <-. by rewrite Hfinal.
Qed.

Lemma worker_trusts_documents_db_witness :
  store_after
    (worker_iteration
       (mkCallbacks (λ _ _ _, Ok tt)
          (Some (λ _, Ok ("unknown", Some "Document not found in database"))))
       10 20) one_queued
  = store_after
      (mark_failed 20 "job"
         "Document status is 'unknown' after processing - expected 'completed' or 'failed'")
      (store_after (mark_processing 10 "job") one_queued).
Proof.
  refine (proj2 (worker_trusts_documents_db
                   (mkCallbacks (λ _ _ _, Ok tt)
                      (Some (λ _, Ok ("unknown", Some "Document not found in database"))))
                   10 20 one_queued (mkJobDict "job" "nb" "doc" "text" 0 2)
                   ∅ _ "unknown" "Document not found in database"
                   _ _ _ _ _) _); reflexivity.
Defined.
End verification_facts.

Section drain_facts.
Import Queue History Samples.

Lemma alter_as_insert (f : Job → Job) id (db : DB) j :
  db !! id = Some j → alter f id db = <[id := f j]> db.
Proof.
  intros Hj. apply map_eq. intros i. destruct (decide (id = i)) as [<-|Hne].
  - by rewrite lookup_alter_eq, lookup_insert_eq, Hj.
  - by rewrite lookup_alter_ne, lookup_insert_ne.
Qed.

Lemma count_where_replace P (db : DB) id j j' :
  db !! id = Some j →
  (count_where P (<[id := j']> db) + (if P j then 1 else 0)
   = count_where P db + (if P j' then 1 else 0))%nat.
Proof.
  intros Hj. rewrite count_where_insert.
  rewrite <- (insert_id db id j Hj) at 2. rewrite count_where_insert. lia.
Qed.

Lemma worker_loop_cons cb t_start t_end rest (db : DB) :
  store_after (worker_loop ((cb, t_start, t_end) :: rest)) db
  = store_after (worker_loop rest)
      (store_after (worker_iteration cb t_start t_end) db).
Proof.
  unfold store_after. cbn [worker_loop]. unfold mbind, Q_bind.
  by rewrite worker_iteration_run.
Qed.

(** A pass whose processor returns normally and whose checker, if there is
    one, answers ["completed"]. *)
Lemma succeeding_pass cb t_start t_end (db : DB) :
  (∀ nb doc text, processor_func cb nb doc text = Ok tt) →
  match status_checker_func cb with
  | None => True
  | Some chk => ∀ doc, ∃ e, chk doc = Ok ("completed", e)
  end →
  store_after (worker_iteration cb t_start t_end) db =
    match first_row sorts_before (queued_rows db) with
    | Some row => <[row.1 := set_completed t_end (set_processing t_start row.2)]> db
    | None => db
    end.
Proof.
  intros Hproc Hchk. unfold store_after at 1. rewrite worker_iteration_run. simpl.
  pose proof (first_queued_row db) as Hrow.
  destruct (first_row sorts_before (queued_rows db)) as [row|]; [|done].
  destruct Hrow as (Hj & _).
  assert (Hout : outcome_of cb t_end (row_dict row) = mark_completed t_end row.1).
  { unfold outcome_of. rewrite Hproc.
    destruct (status_checker_func cb) as [chk|]; [|done].
    destruct (Hchk (d_document_id (row_dict row))) as [e ->]. done. }
  rewrite Hout. unfold store_after. simpl.
  rewrite (alter_as_insert _ _ _ _ Hj).
  rewrite (alter_as_insert _ row.1 _ (set_processing t_start row.2))
    by apply lookup_insert_eq.
  by rewrite insert_insert_eq.
Qed.

(** X17.  A worker whose passes all succeed (the processor returns
    normally and the checker, if registered, answers ["completed"]) takes
    one job out of the queue per pass until none is [queued]: after n
    passes the number of [queued] rows has gone down by n, or to 0, the
    number of [completed] rows has gone up by as much, and no row was added
    or removed. *)
Theorem worker_loop_drains (schedule : list (Callbacks * Z * Z)) (db : DB) :
  Forall (λ pass : Callbacks * Z * Z,
            (∀ nb doc text, processor_func pass.1.1 nb doc text = Ok tt)
            ∧ match status_checker_func pass.1.1 with
              | None => True
              | Some chk => ∀ doc, ∃ e, chk doc = Ok ("completed", e)
              end) schedule →
  let queued_in (db : DB) := count_where (λ j, bool_decide (status j = Queued)) db in
  let completed_in (db : DB) :=
    count_where (λ j, bool_decide (status j = Completed)) db in
  let db' := store_after (worker_loop schedule) db in
  queued_in db' = (queued_in db - length schedule)%nat
  ∧ completed_in db' = (completed_in db + (length schedule `min` queued_in db))%nat
  ∧ size db' = size db.
Proof.
  intros Hall queued_in completed_in. revert db.
  induction Hall as [|[[cb t_start] t_end] rest [Hproc Hchk] _ IH]; intros db db'.
  - subst db'. unfold store_after. simpl. split; [lia|]. split; [lia|done].
  - subst db'. rewrite worker_loop_cons.
    set (db1 := store_after (worker_iteration cb t_start t_end) db).
    destruct (IH db1) as (Hq & Hc & Hs). rewrite Hq, Hc, Hs. clear Hq Hc Hs IH.
    simpl in Hproc, Hchk.
    pose proof (succeeding_pass cb t_start t_end db Hproc Hchk) as Hpass.
    fold db1 in Hpass. pose proof (first_queued_row db) as Hrow.
    destruct (first_row sorts_before (queued_rows db)) as [row|].
    + destruct Hrow as (Hj & Hqd & _).
      pose proof (count_where_replace (λ j, bool_decide (status j = Queued)) db
                    row.1 row.2 (set_completed t_end (set_processing t_start row.2)) Hj)
        as Hcq.
      pose proof (count_where_replace (λ j, bool_decide (status j = Completed)) db
                    row.1 row.2 (set_completed t_end (set_processing t_start row.2)) Hj)
        as Hcc.
      rewrite <- Hpass in Hcq, Hcc. simpl in Hcq, Hcc. rewrite Hqd in Hcq, Hcc.
      simpl in Hcq, Hcc. fold (queued_in db1) (queued_in db) in Hcq.
      fold (completed_in db1) (completed_in db) in Hcc.
      assert (size db1 = size db) as ->.
      { rewrite Hpass. rewrite map_size_insert, Hj. done. }
      simpl length. split; [lia|]. split; [lia|done].
    + rewrite Hpass.
      assert (queued_in db = 0%nat) as Hzero.
      { apply count_where_none. intros id j Hj.
        apply bool_decide_eq_false. by eapply Hrow. }
      rewrite Hzero. simpl length. split; [lia|]. split; [lia|done].
Qed.

Lemma worker_loop_drains_witness :
  count_where (λ j, bool_decide (status j = Queued))
    (store_after (worker_loop [(mkCallbacks (λ _ _ _, Ok tt) None, 10, 20)])
       one_queued)
  = (count_where (λ j, bool_decide (status j = Queued)) one_queued - 1)%nat.
Proof.
  refine (proj1 (worker_loop_drains
                   [(mkCallbacks (λ _ _ _, Ok tt) None, 10, 20)] one_queued _)).
  constructor; [|constructor]. simpl. split; [reflexivity|exact I].
Defined.
End drain_facts.

Section stale_docs_facts.
Import Reconcile StaleDocs.

Example lower_answers :
  lower "YES" = "yes" ∧ lower "Cancel" = "cancel" ∧ lower "all" = "all"
  ∧ lower "doc_12-Ab" = "doc_12-ab".
Proof. repeat split; reflexivity. Qed.

Example contains_examples :
  contains "1760" "doc_nb_1760290028073" = true
  ∧ contains "" "doc" = true ∧ contains "" "" = true
  ∧ contains "x" "doc" = false ∧ contains "doc_" "doc" = false.
Proof. repeat split; reflexivity. Qed.

Lemma prefix_true (p s : string) :
  String.prefix p s = true ↔ ∃ post, s = (p +:+ post)%string.
Proof.
  revert s. induction p as [|c p IH]; intros s.
  - split; [intros _; by exists s|by destruct s].
  - destruct s as [|c' s]; simpl; [split; [done|by intros [? ?]]|].
    destruct (Ascii.ascii_dec c c') as [<-|Hne].
    + rewrite IH. split; intros [post Hpost]; exists post.
      * by rewrite Hpost.
      * by injection Hpost.
    + split; [done|]. intros [post Hpost]. by injection Hpost.
Qed.

Lemma contains_true (p s : string) :
  contains p s = true ↔ ∃ pre post, s = (pre +:+ p +:+ post)%string.
Proof.
  induction s as [|c s IH]; cbn [contains].
  - rewrite orb_false_r, prefix_true. split.
    + intros [post Hpost]. by exists "", post.
    + intros (pre & post & Heq). destruct pre; [by exists post|done].
  - rewrite orb_true_iff, prefix_true, IH. split.
    + intros [[post Hpost]|(pre & post & Heq)].
      * by exists "", post.
      * exists (String c pre), post. by rewrite Heq.
    + intros (pre & post & Heq). destruct pre as [|c' pre].
      * left. by exists post.
      * right. exists pre, post. by injection Heq.
Qed.

Lemma lookup_foldl_delete (m : gmap string json) (ks : list string) k :
  foldl (λ m k, delete k m) m ks !! k = if decide (k ∈ ks) then None else m !! k.
Proof.
  revert m. induction ks as [|k0 ks IH]; intros m; cbn [foldl].
  - by rewrite decide_False by apply not_elem_of_nil.
  - rewrite IH. destruct (decide (k ∈ ks)) as [Hin|Hnin].
    + by rewrite decide_True by (by right).
    + destruct (decide (k = k0)) as [->|Hne].
      * rewrite decide_True by left. apply lookup_delete_eq.
      * rewrite decide_False by (by intros [?|?]%elem_of_cons).
        by apply lookup_delete_ne.
Qed.

Lemma removed_ids_lookup (doc_status : DocStatus) choice doc_id :
  foldl (λ m k, delete k m) doc_status
    (filter (λ k, contains choice k = true) (map_to_list doc_status).*1) !! doc_id
  = if contains choice doc_id then None else doc_status !! doc_id.
Proof.
  rewrite lookup_foldl_delete. destruct (contains choice doc_id) eqn:Hc.
  - destruct (doc_status !! doc_id) as [v|] eqn:Hv; [|by case_decide].
    rewrite decide_True; [done|]. apply list_elem_of_filter. split; [done|].
    apply list_elem_of_fmap. exists (doc_id, v). split; [done|].
    by apply elem_of_map_to_list.
  - rewrite decide_False; [done|]. intros [Hc' _]%list_elem_of_filter.
    congruence.
Qed.

Lemma cleanup_stale_docs_short (doc_status : DocStatus) answers :
  (length answers < 2)%nat →
  (cleanup_stale_docs (Some doc_status) answers).2 = Some doc_status.
Proof.
  destruct answers as [|choice [|confirm rest]]; simpl; [done| |lia]. intros _.
  repeat case_bool_decide; try done. by destruct (filter _ _).
Qed.

Lemma cleanup_stale_docs_run (doc_status : DocStatus) choice confirm rest :
  (cleanup_stale_docs (Some doc_status) (choice :: confirm :: rest)).2
  = Some (if bool_decide (lower choice = "cancel") then doc_status
          else if bool_decide (lower confirm = "yes") then
            if bool_decide (lower choice = "all") then ∅
            else foldl (λ m k, delete k m) doc_status
                   (filter (λ k, contains choice k = true)
                           (map_to_list doc_status).*1)
          else doc_status).
Proof.
  simpl. repeat case_bool_decide; try done; by destruct (filter _ _).
Qed.

(** X18.  The clean-up script changes the storage file only after the
    answer [yes] (in any letter case) to its confirmation prompt, and never
    after [cancel].  After [all] and [yes] the file holds no entry.  After
    any other first answer and [yes], exactly the entries whose id contains
    that answer as a substring are removed and every other entry is kept as
    it was; the empty answer is contained in every id, so it removes every
    entry. *)
Theorem cleanup_stale_docs_spec (doc_status : DocStatus) (answers : list string) :
  ∃ out, (cleanup_stale_docs (Some doc_status) answers).2 = Some out
    ∧ (out ≠ doc_status →
       ∃ choice confirm rest,
         answers = choice :: confirm :: rest
         ∧ lower confirm = "yes" ∧ lower choice ≠ "cancel")
    ∧ (∀ choice confirm rest,
         answers = choice :: confirm :: rest →
         lower confirm = "yes" → lower choice ≠ "cancel" →
         (lower choice = "all" → out = ∅)
         ∧ (lower choice ≠ "all" →
            ∀ doc_id, out !! doc_id
                      = if contains choice doc_id then None
                        else doc_status !! doc_id)
         ∧ (choice = "" → out = ∅))
    ∧ (∀ pattern doc_id,
         contains pattern doc_id = true
         ↔ ∃ pre post, doc_id = (pre +:+ pattern +:+ post)%string).
Proof.
  destruct (decide (length answers < 2)%nat) as [Hshort|Hlong].
  - exists doc_status. split; [by apply cleanup_stale_docs_short|].
    split; [done|]. split; [|apply contains_true].
    intros choice confirm rest ->. simpl in Hshort. lia.
  - destruct answers as [|choice [|confirm rest]]; simpl in Hlong; try lia.
    eexists. split; [apply cleanup_stale_docs_run|].
    split; [|split; [|apply contains_true]].
    + intros Hchanged. exists choice, confirm, rest. split; [done|].
      repeat case_bool_decide; done.
    + intros ? ? ? [= <- <- <-] Hyes Hcancel.
      rewrite bool_decide_eq_false_2, bool_decide_eq_true_2 by done.
      split; [|split].
      * intros Hall. by rewrite bool_decide_eq_true_2.
      * intros Hall doc_id. rewrite bool_decide_eq_false_2 by done.
        apply removed_ids_lookup.
      * intros ->. rewrite bool_decide_eq_false_2 by done.
        apply map_eq. intros doc_id. rewrite removed_ids_lookup.
        by destruct doc_id.
Qed.

Example cleanup_stale_docs_by_pattern :
  (cleanup_stale_docs
     (Some {[ "doc_nb_17" := JStr "a"; "doc_nb_18" := JStr "b" ]}) ["17"; "YES"]).2
  = Some {[ "doc_nb_18" := JStr "b" ]}.
Proof. reflexivity. Qed.
End stale_docs_facts.
